(** * A bounded FIFO of heap-allocated strings: the C ring buffer, embedded

    The repository holds successive revisions of one C file.  Two of them
    are complete programs and are embedded here, each in its own module:

    - [Part001]: the revision with the helper [fifo_filled]
      (src/unnamed/part_001);
    - [Part002]: the last revision, whose [main] carries the author's own
      tests (src/unnamed/part_002).

    Conventions of the embedding.

    - [int] fields are integers of [Z]; every reachable state keeps them in
      [0, INT_MAX] (lemma [repr_int_range]), so no C addition overflows.
    - A [char *] slot is an [option string]: [None] is [NULL], [Some s] is a
      pointer to a heap block that holds the bytes of [s].
    - A [struct fifo *] argument is an [option fifo]: [None] is [NULL], and
      [Some f] is a valid pointer whose pointee is [f].  A function that
      mutates the pointee returns its new value.
    - [calloc] may fail: each function that allocates takes the allocator's
      answer as [alloc_ok].
    - Undefined behaviour (a remainder by zero, a slot access outside the
      allocated array, a copy into [NULL]) is a [Fault]; calls to the
      allocator, to [free] and to [stderr] are recorded in a trace. *)

From Stdlib Require Import ZArith Lia.
From stdpp Require Import base list strings.

Local Open Scope Z_scope.

(** ** Outcomes: an error monad that logs the calls to the C library *)

Inductive fault : Type :=
  | DivByZero
  | OutOfBounds (i : Z)
  | NullDeref.

Inductive event : Type :=
  | EvCalloc (ok : bool)
  | EvStderr
  | EvFreeSlot (i : Z)
  | EvFreeFifo.

Inductive outcome (A : Type) : Type :=
  | Ok (a : A) (tr : list event)
  | Fault (e : fault) (tr : list event).

Arguments Ok {A} a tr.
Arguments Fault {A} e tr.

#[export] Instance outcome_ret : MRet outcome := λ A a, Ok a [].

#[export] Instance outcome_bind : MBind outcome := λ A B k m,
  match m with
  | Ok a tr =>
      match k a with
      | Ok b tr' => Ok b (tr ++ tr')
      | Fault e tr' => Fault e (tr ++ tr')
      end
  | Fault e tr => Fault e tr
  end.

Definition emit (ev : event) : outcome unit := Ok tt [ev].

Definition raise {A} (e : fault) : outcome A := Fault e [].

(** ** The data model *)

Definition INT_MAX : Z := 2147483647.

(** [struct fifo]; [contents] is the flexible array member, whose length is
    the number of slots that [fifo_new] allocated. *)
Record fifo : Type := mk_fifo {
  size : Z;
  empty : Z;
  produce : Z;
  consume : Z;
  contents : list (option string)
}.

(** ** C primitives *)

(** [a % b] on [int]: the remainder of the division that truncates. *)
Definition c_rem (a b : Z) : outcome Z :=
  if b =? 0 then raise DivByZero else mret (Z.rem a b).

Definition in_bounds (l : list (option string)) (i : Z) : bool :=
  (0 <=? i) && (i <? Z.of_nat (length l)).

(** [contents[i]] as an rvalue. *)
Definition slot_read (l : list (option string)) (i : Z) : outcome (option string) :=
  if in_bounds l i then
    match l !! Z.to_nat i with
    | Some p => mret p
    | None => raise (OutOfBounds i)
    end
  else raise (OutOfBounds i).

(** [contents[i] = p]. *)
Definition slot_write (l : list (option string)) (i : Z) (p : option string)
  : outcome (list (option string)) :=
  if in_bounds l i then mret (<[Z.to_nat i := p]> l) else raise (OutOfBounds i).

(** [calloc]: the answer of the allocator, logged. *)
Definition calloc (alloc_ok : bool) : outcome bool := Ok alloc_ok [EvCalloc alloc_ok].

(** The loop of [fifo_free], the same in both revisions:
<<
    while (curr != end || fifo->empty == 0) {
        if (fifo->contents[curr] != NULL) { free(fifo->contents[curr]); }
        curr = (curr + 1) % fifo->size;
        if (curr == end) { fifo->empty = 1; }
    }
>>
    The loop variables are [curr] and the field [empty], which the loop
    itself writes.  [None] means that [fuel] iterations did not reach the
    exit. *)
Fixpoint free_loop (fuel : nat) (f : fifo) (curr end_ empty_ : Z)
  : option (outcome unit) :=
  if negb (curr =? end_) || (empty_ =? 0) then
    match fuel with
    | O => None
    | S fuel' =>
        match slot_read (contents f) curr with
        | Fault e tr => Some (Fault e tr)
        | Ok p tr0 =>
            let tr1 := tr0 ++ (if p is Some _ then [EvFreeSlot curr] else []) in
            match c_rem (curr + 1) (size f) with
            | Fault e tr => Some (Fault e (tr1 ++ tr))
            | Ok curr' tr =>
                let empty' := if curr' =? end_ then 1 else empty_ in
                match free_loop fuel' f curr' end_ empty' with
                | None => None
                | Some (Ok u tr') => Some (Ok u (tr1 ++ tr ++ tr'))
                | Some (Fault e tr') => Some (Fault e (tr1 ++ tr ++ tr'))
                end
            end
        end
    end
  else Some (mret tt).

(** The number of populated (non-[NULL]) slots of a slot array. *)
Definition populated (l : list (option string)) : Z :=
  Z.of_nat (length (filter is_Some l)).

(** ** The last revision (src/unnamed/part_002) *)

Module Part002.

(** [struct fifo *fifo_new(int size)]. *)
Definition fifo_new (alloc_ok : bool) (size : Z) : outcome (option fifo) :=
  if size <? 0 then mret None
  else
    ok ← calloc alloc_ok;
    if negb ok then _ ← emit EvStderr; mret None
    else
      mret (Some {| size := size;
                    empty := if 0 <? size then 1 else 0;
                    produce := 0;
                    consume := 0;
                    contents := replicate (Z.to_nat size) None |}).

(** [void fifo_free(struct fifo *fifo)].  The calls of [bzero] (over each
    string before its [free], over the slot array and over the structure
    after the loop) release nothing and are left out. *)
Definition fifo_free (fuel : nat) (fp : option fifo) : option (outcome unit) :=
  match fp with
  | None => Some (mret tt)
  | Some f =>
      let curr := consume f in
      let end_ := produce f in
      let '(curr, end_) :=
        if (curr =? end_) && (empty f =? 0) then (0, 0) else (curr, end_) in
      match free_loop fuel f curr end_ (empty f) with
      | None => None
      | Some r => Some (_ ← r; emit EvFreeFifo)
      end
  end.

(** The flag [space] of [fifo_push]. *)
Definition push_space (f : fifo) : Z :=
  if negb (consume f =? produce f)
     || ((0 <? size f) && (consume f =? produce f) && (empty f =? 1))
  then 1 else 0.

(** [int fifo_push(struct fifo *fifo, const char *str)]. *)
Definition fifo_push (alloc_ok : bool) (fp : option fifo) (str : option string)
  : outcome (Z * option fifo) :=
  match fp with
  | None => mret (0, None)
  | Some f =>
      let space := push_space f in
      match str with
      | None => mret (space, Some f)
      | Some s =>
          if space <=? 0 then mret (space, Some f)
          else
            ok ← calloc alloc_ok;
            if negb ok then _ ← emit EvStderr; mret (space, Some f)
            else
              cs ← slot_write (contents f) (produce f) (Some s);
              p ← c_rem (produce f + 1) (size f);
              mret (space,
                    Some {| size := size f;
                            empty := if empty f =? 1 then 0 else empty f;
                            produce := p;
                            consume := consume f;
                            contents := cs |})
      end
  end.

(** The flag [space] of [fifo_pull]. *)
Definition pull_space (f : fifo) : Z :=
  if ((consume f =? produce f) && (empty f =? 1)) || (size f =? 0)
  then 0 else 1.

(** [char *fifo_pull(struct fifo *fifo)]. *)
Definition fifo_pull (fp : option fifo) : outcome (option string * option fifo) :=
  match fp with
  | None => mret (None, None)
  | Some f =>
      if pull_space f <=? 0 then mret (None, Some f)
      else
        str ← slot_read (contents f) (consume f);
        cs ← slot_write (contents f) (consume f) None;
        c ← c_rem (consume f + 1) (size f);
        mret (str,
              Some {| size := size f;
                      empty := if c =? produce f then 1 else empty f;
                      produce := produce f;
                      consume := c;
                      contents := cs |})
  end.

(** [n] calls of [fifo_push] in a row, the allocator answering yes: the
    values returned and the buffer left. *)
Fixpoint push_all (fp : option fifo) (vs : list string)
  : outcome (list Z * option fifo) :=
  match vs with
  | [] => mret ([], fp)
  | v :: vs =>
      '(r, fp) ← fifo_push true fp (Some v);
      '(rs, fp) ← push_all fp vs;
      mret (r :: rs, fp)
  end.

(** [n] calls of [fifo_pull] in a row. *)
Fixpoint pull_n (fp : option fifo) (n : nat)
  : outcome (list (option string) * option fifo) :=
  match n with
  | O => mret ([], fp)
  | S n =>
      '(s, fp) ← fifo_pull fp;
      '(ss, fp) ← pull_n fp n;
      mret (s :: ss, fp)
  end.

(** The states of a buffer made by [fifo_new(c)] that a client reaches
    with calls of [fifo_push] (any argument, any answer of the allocator)
    and [fifo_pull]. *)
Inductive reachable (c : Z) : fifo → Prop :=
  | reach_new f tr :
      c <= INT_MAX →
      fifo_new true c = Ok (Some f) tr →
      reachable c f
  | reach_push f alloc_ok str r f' tr :
      reachable c f →
      fifo_push alloc_ok (Some f) str = Ok (r, Some f') tr →
      reachable c f'
  | reach_pull f r f' tr :
      reachable c f →
      fifo_pull (Some f) = Ok (r, Some f') tr →
      reachable c f'.

End Part002.

(** ** The revision with [fifo_filled] (src/unnamed/part_001)

    Its functions also test [fifo->contents != NULL]; [contents] is an
    array member of the structure, so the test always holds and does not
    appear below. *)

Module Part001.

(** [struct fifo *fifo_new(int size)]. *)
Definition fifo_new (alloc_ok : bool) (size : Z) : outcome (option fifo) :=
  if size <? 0 then mret None
  else
    ok ← calloc alloc_ok;
    if negb ok then _ ← emit EvStderr; mret None
    else
      mret (Some {| size := size;
                    empty := 1;
                    produce := 0;
                    consume := 0;
                    contents := replicate (Z.to_nat size) None |}).

(** [void fifo_free(struct fifo *fifo)]. *)
Definition fifo_free (fuel : nat) (fp : option fifo) : option (outcome unit) :=
  match fp with
  | None => Some (mret tt)
  | Some f =>
      let start := consume f in
      let end_ := produce f in
      let '(start, end_) :=
        if (start =? end_) && (empty f =? 0) then (0, 0) else (start, end_) in
      match free_loop fuel f start end_ (empty f) with
      | None => None
      | Some r => Some (_ ← r; emit EvFreeFifo)
      end
  end.

(** [int fifo_filled(struct fifo *fifo)]. *)
Definition fifo_filled (fp : option fifo) : Z :=
  match fp with
  | None => -1
  | Some f =>
      if produce f >? consume f then produce f - consume f
      else if produce f <? consume f then size f - consume f + produce f
      else if empty f =? 1 then 0
      else size f
  end.

(** [int fifo_push(struct fifo *fifo, const char *str)].  The result of
    [calloc] is not tested: when the allocation fails, [memcpy] copies
    [strlen(str) + 1 >= 1] bytes into [NULL]. *)
Definition fifo_push (alloc_ok : bool) (fp : option fifo) (str : option string)
  : outcome (Z * option fifo) :=
  match fp with
  | None => mret (0, None)
  | Some f =>
      let space := size f - fifo_filled (Some f) in
      match str with
      | None => mret (space, Some f)
      | Some s =>
          if (space <=? 0) || ((space =? size f) && (empty f =? 0))
          then mret (0, Some f)
          else
            ok ← calloc alloc_ok;
            if negb ok then raise NullDeref
            else
              cs ← slot_write (contents f) (produce f) (Some s);
              p ← c_rem (produce f + 1) (size f);
              mret (space,
                    Some {| size := size f;
                            empty := 0;
                            produce := p;
                            consume := consume f;
                            contents := cs |})
      end
  end.

(** [char *fifo_pull(struct fifo *fifo)]. *)
Definition fifo_pull (fp : option fifo) : outcome (option string * option fifo) :=
  match fp with
  | None => mret (None, None)
  | Some f =>
      let space := fifo_filled (Some f) in
      if space <=? 0 then mret (None, Some f)
      else
        str ← slot_read (contents f) (consume f);
        cs ← slot_write (contents f) (consume f) None;
        c ← c_rem (consume f + 1) (size f);
        mret (str,
              Some {| size := size f;
                      empty := if c =? produce f then 1 else empty f;
                      produce := produce f;
                      consume := c;
                      contents := cs |})
  end.

(** A call of [fifo_push] stored its argument: the argument was a string
    and the call returned a count that is not zero. *)
Definition push_stored (str : option string) (r : Z) : bool :=
  match str with
  | None => false
  | Some _ => negb (r =? 0)
  end.

(** A call of [fifo_pull] removed a string: it did not return [NULL]. *)
Definition pull_removed (r : option string) : bool :=
  match r with
  | None => false
  | Some _ => true
  end.

(** The states of a buffer made by [fifo_new(c)] that a client reaches
    with calls of [fifo_push] and [fifo_pull] that return, together with
    the number of calls of [fifo_push] that stored a string and the number
    of calls of [fifo_pull] that removed one. *)
Inductive history (c : Z) : fifo → Z → Z → Prop :=
  | hist_new f tr :
      c <= INT_MAX →
      fifo_new true c = Ok (Some f) tr →
      history c f 0 0
  | hist_push f pushes pulls alloc_ok str r f' tr :
      history c f pushes pulls →
      fifo_push alloc_ok (Some f) str = Ok (r, Some f') tr →
      history c f' (pushes + (if push_stored str r then 1 else 0)) pulls
  | hist_pull f pushes pulls r f' tr :
      history c f pushes pulls →
      fifo_pull (Some f) = Ok (r, Some f') tr →
      history c f' pushes (pulls + (if pull_removed r then 1 else 0)).

(** The occupancy as the specification words it, over the fields
    [write_index = produce], [read_index = consume], [is_empty = (empty == 1)]
    and [capacity = size]. *)
Definition occupancy_spec (f : fifo) : Z :=
  let write_index := produce f in
  let read_index := consume f in
  let is_empty := empty f =? 1 in
  let capacity := size f in
  if read_index <? write_index then write_index - read_index
  else if write_index <? read_index then capacity - read_index + write_index
  else if is_empty then 0 else capacity.

End Part001.

(** ** The representation invariant

    [repr e0 f q]: the buffer [f] holds the queue [q], oldest string first.
    [e0] is the value of the flag [empty] in a buffer without slots, where
    the two revisions differ. *)

Record repr (e0 : Z) (f : fifo) (q : list string) : Prop := Repr {
  repr_size : 0 <= size f <= INT_MAX;
  repr_alloc : length (contents f) = Z.to_nat (size f);
  repr_fits : Z.of_nat (length q) <= size f;
  repr_consume : 0 <= consume f ∧ (consume f < size f ∨ size f = 0 ∧ consume f = 0);
  repr_produce :
    produce f =
      if size f =? 0 then 0
      else (consume f + Z.of_nat (length q)) mod size f;
  repr_empty :
    empty f = if size f =? 0 then e0 else if q is [] then 1 else 0;
  repr_slots : ∀ k : nat,
    Z.of_nat k < size f →
    contents f !! Z.to_nat ((consume f + Z.of_nat k) mod size f) = Some (q !! k)
}.

(** The buffer of capacity 2 that [fifo_new] returns, and the one of
    capacity 0 as the last revision makes it. *)
Definition fifo2 : fifo := mk_fifo 2 1 0 0 [None; None].

Definition fifo0 : fifo := mk_fifo 0 0 0 0 [].

(** A buffer of capacity 1 that holds one string. *)
Definition fifo1_full : fifo := mk_fifo 1 0 0 0 [Some "a"].

(** ** The rest of the two files: [fifo_dump] and clients

    [fifo_dump] is the same text in both revisions and calls the
    [fifo_pull] of its own file:
<<
    void fifo_dump(struct fifo *fifo) {
        char *str;
        while(str = fifo_pull(fifo), str) {
            printf("%s\n", str);
            free(str);
        }
    }
>>
    Its result below is the list of the strings written to [stdout], one
    per line and in the order written, each released by [free] right after
    its line, together with the buffer left.  [None] means that the loop
    was still running after [fuel] strings.

    Two files stay outside.  The draft src/unnamed/part_000 stores
    [strlen(str)] bytes, without the terminating NUL: what its slots hold
    is not a C string, which a slot of type [option string] cannot say.
    The skeleton src/fifo_to_complete.c has empty bodies for [fifo_push]
    and [fifo_pull].  [main] calls the functions on fixed arguments; some
    of its groups are replayed as examples. *)

(** A call of a client on its buffer, and the value the call returns. *)
Inductive call : Type :=
  | CallPush (alloc_ok : bool) (str : option string)
  | CallPull.

Inductive ret : Type :=
  | RetInt (r : Z)
  | RetStr (s : option string).

Module Part002Rest.

(** [void fifo_dump(struct fifo *fifo)], last revision. *)
Fixpoint fifo_dump (fuel : nat) (fp : option fifo)
  : option (outcome (list string * option fifo)) :=
  match Part002.fifo_pull fp with
  | Fault e tr => Some (Fault e tr)
  | Ok (None, fp') tr => Some (Ok ([], fp') tr)
  | Ok (Some str, fp') tr =>
      match fuel with
      | O => None
      | S fuel' =>
          match fifo_dump fuel' fp' with
          | None => None
          | Some (Ok (out, fp'') tr') => Some (Ok (str :: out, fp'') (tr ++ tr'))
          | Some (Fault e tr') => Some (Fault e (tr ++ tr'))
          end
      end
  end.

(** A client: a sequence of calls on one buffer, and what they return. *)
Fixpoint run (cs : list call) (fp : option fifo) : outcome (list ret * option fifo) :=
  match cs with
  | [] => mret ([], fp)
  | CallPush alloc_ok str :: cs =>
      '(r, fp) ← Part002.fifo_push alloc_ok fp str;
      '(rs, fp) ← run cs fp;
      mret (RetInt r :: rs, fp)
  | CallPull :: cs =>
      '(s, fp) ← Part002.fifo_pull fp;
      '(rs, fp) ← run cs fp;
      mret (RetStr s :: rs, fp)
  end.

End Part002Rest.

Module Part001Rest.

(** [void fifo_dump(struct fifo *fifo)], revision with [fifo_filled]. *)
Fixpoint fifo_dump (fuel : nat) (fp : option fifo)
  : option (outcome (list string * option fifo)) :=
  match Part001.fifo_pull fp with
  | Fault e tr => Some (Fault e tr)
  | Ok (None, fp') tr => Some (Ok ([], fp') tr)
  | Ok (Some str, fp') tr =>
      match fuel with
      | O => None
      | S fuel' =>
          match fifo_dump fuel' fp' with
          | None => None
          | Some (Ok (out, fp'') tr') => Some (Ok (str :: out, fp'') (tr ++ tr'))
          | Some (Fault e tr') => Some (Fault e (tr ++ tr'))
          end
      end
  end.

(** A client: a sequence of calls on one buffer, and what they return. *)
Fixpoint run (cs : list call) (fp : option fifo) : outcome (list ret * option fifo) :=
  match cs with
  | [] => mret ([], fp)
  | CallPush alloc_ok str :: cs =>
      '(r, fp) ← Part001.fifo_push alloc_ok fp str;
      '(rs, fp) ← run cs fp;
      mret (RetInt r :: rs, fp)
  | CallPull :: cs =>
      '(s, fp) ← Part001.fifo_pull fp;
      '(rs, fp) ← run cs fp;
      mret (RetStr s :: rs, fp)
  end.

End Part001Rest.

(** ** A bounded queue of strings as a list, oldest first

    The reference against which the two ring buffers are compared; it is
    not taken from the source. *)

Definition queue_pull (q : list string) : ret * list string :=
  match q with
  | [] => (RetStr None, [])
  | s :: q' => (RetStr (Some s), q')
  end.

(** The queue of capacity [c] as the last revision answers: a push returns
    1 when there is room and 0 when there is none, and enqueues when there
    is room and the allocation succeeds. *)
Definition flag_queue_call (c : Z) (q : list string) (o : call) : ret * list string :=
  match o with
  | CallPush alloc_ok str =>
      if Z.of_nat (length q) <? c then
        (RetInt 1,
         match str with
         | Some s => if alloc_ok then q ++ [s] else q
         | None => q
         end)
      else (RetInt 0, q)
  | CallPull => queue_pull q
  end.

Fixpoint flag_queue_run (c : Z) (q : list string) (cs : list call)
  : list ret * list string :=
  match cs with
  | [] => ([], q)
  | o :: cs =>
      let '(r, q') := flag_queue_call c q o in
      let '(rs, q'') := flag_queue_run c q' cs in
      (r :: rs, q'')
  end.

(** The queue of capacity [c] as the revision with [fifo_filled] answers:
    a push returns the room left before it; [None] stands for the call
    that crashes, a push with room whose allocation fails. *)
Definition count_queue_call (c : Z) (q : list string) (o : call)
  : option (ret * list string) :=
  match o with
  | CallPush alloc_ok str =>
      match str with
      | None => Some (RetInt (c - Z.of_nat (length q)), q)
      | Some s =>
          if Z.of_nat (length q) <? c then
            if alloc_ok then Some (RetInt (c - Z.of_nat (length q)), q ++ [s])
            else None
          else Some (RetInt 0, q)
      end
  | CallPull => Some (queue_pull q)
  end.

Fixpoint count_queue_run (c : Z) (q : list string) (cs : list call)
  : option (list ret * list string) :=
  match cs with
  | [] => Some ([], q)
  | o :: cs =>
      match count_queue_call c q o with
      | None => None
      | Some (r, q') =>
          match count_queue_run c q' cs with
          | None => None
          | Some (rs, q'') => Some (r :: rs, q'')
          end
      end
  end.

(** A buffer of capacity 3 whose queue wraps around the end of the array:
    it holds "b" then "c", in slots 2 and 0. *)
Definition fifo3_wrapped : fifo := mk_fifo 3 0 1 2 [Some "c"; None; Some "b"].

(** * Proofs *)

(** ** Wrapping indices *)

Lemma wrap_add c a s :
  0 <= c < s → 0 <= a <= s →
  (c + a) mod s = if c + a <? s then c + a else c + a - s.
Proof.
  intros Hc Ha. destruct (Z.ltb_spec (c + a) s) as [Hlt|Hge].
  - apply Z.mod_small. lia.
  - replace (c + a) with (c + a - s + 1 * s) at 1 by ring.
    rewrite Z_mod_plus_full. apply Z.mod_small. lia.
Qed.

Lemma wrap_range c a s : 0 <= c < s → 0 <= a <= s → 0 <= (c + a) mod s < s.
Proof. intros. apply Z.mod_pos_bound. lia. Qed.

(** Distinct offsets below the capacity name distinct slots. *)
Lemma wrap_inj c a b s :
  0 <= c < s → 0 <= a < s → 0 <= b < s →
  (c + a) mod s = (c + b) mod s → a = b.
Proof.
  intros Hc Ha Hb. rewrite !wrap_add by lia.
  destruct (Z.ltb_spec (c + a) s), (Z.ltb_spec (c + b) s); lia.
Qed.

(** Advancing an index and then adding an offset. *)
Lemma wrap_shift c a s :
  0 <= c < s → 0 <= a < s →
  ((c + 1) mod s + a) mod s = (c + (a + 1)) mod s.
Proof.
  intros Hc Ha. rewrite Z.add_mod_idemp_l by lia. f_equal. lia.
Qed.

Lemma c_rem_succ c s :
  0 <= c < s → c_rem (c + 1) s = Ok ((c + 1) mod s) [].
Proof.
  intros Hc. unfold c_rem. destruct (Z.eqb_spec s 0) as [->|_]; [lia|].
  by rewrite Z.rem_mod_nonneg by lia.
Qed.

(** ** Slot accesses inside the array *)

Lemma in_bounds_true (l : list (option string)) i :
  0 <= i < Z.of_nat (length l) → in_bounds l i = true.
Proof. intros. unfold in_bounds. apply andb_true_intro. split; lia. Qed.

Lemma slot_read_ok (l : list (option string)) i p :
  0 <= i → l !! Z.to_nat i = Some p → slot_read l i = Ok p [].
Proof.
  intros Hi Hp. unfold slot_read.
  rewrite in_bounds_true, Hp; [done|].
  apply lookup_lt_Some in Hp. lia.
Qed.

Lemma slot_write_ok (l : list (option string)) i p :
  0 <= i < Z.of_nat (length l) →
  slot_write l i p = Ok (<[Z.to_nat i := p]> l) [].
Proof. intros. unfold slot_write. by rewrite in_bounds_true. Qed.

(** ** Counting the populated slots *)

Lemma populated_app l1 l2 : populated (l1 ++ l2) = populated l1 + populated l2.
Proof. unfold populated. rewrite filter_app, length_app. lia. Qed.

Lemma populated_rotate n l : populated (rotate n l) = populated l.
Proof.
  unfold rotate. rewrite populated_app, Z.add_comm, <- populated_app.
  by rewrite take_drop.
Qed.

Lemma populated_cons p l :
  populated (p :: l) = (if p is Some _ then 1 else 0) + populated l.
Proof.
  unfold populated. destruct p as [s|].
  - rewrite filter_cons_True by eauto. rewrite length_cons. lia.
  - rewrite filter_cons_False by (by intros [? ?]). lia.
Qed.

Lemma populated_replicate_None n : populated (replicate n None) = 0.
Proof.
  induction n as [|n IH]; [done|].
  rewrite replicate_S, populated_cons. lia.
Qed.

Lemma populated_fmap_Some (q : list string) :
  populated (Some <$> q) = Z.of_nat (length q).
Proof.
  induction q as [|s q IH]; [done|].
  rewrite fmap_cons, populated_cons, length_cons. lia.
Qed.

(** ** The representation invariant *)

(** Replace every wrapped sum by its two cases. *)
Ltac unwrap :=
  rewrite ?wrap_add in * by lia;
  repeat match goal with
         | |- context [?a <? ?b] => destruct (Z.ltb_spec a b)
         | H : context [?a <? ?b] |- _ => destruct (Z.ltb_spec a b)
         end.

(** Split on whether the buffer has slots, in the goal and the hypotheses. *)
Ltac case_size f Hz :=
  destruct (decide (size f = 0)) as [Hz|Hz];
  [ rewrite ?(proj2 (Z.eqb_eq (size f) 0) Hz) in *
  | rewrite ?(proj2 (Z.eqb_neq (size f) 0) Hz) in * ].

Section Representation.

Variable e0 : Z.

Lemma repr_new c e :
  0 <= c <= INT_MAX →
  e = (if c =? 0 then e0 else 1) →
  repr e0 (mk_fifo c e 0 0 (replicate (Z.to_nat c) None)) [].
Proof.
  intros Hc ->. split; cbn.
  - done.
  - by rewrite length_replicate.
  - lia.
  - lia.
  - destruct (Z.eqb_spec c 0); [done|]. by rewrite Z.mod_0_l by lia.
  - done.
  - intros k Hk. apply lookup_replicate_2.
    assert (0 <= Z.of_nat k `mod` c < c) by (apply Z.mod_pos_bound; lia).
    rewrite Z.add_0_l. lia.
Qed.

Lemma repr_int_range f q :
  repr e0 f q →
  0 <= size f <= INT_MAX ∧ 0 <= produce f <= INT_MAX ∧ 0 <= consume f <= INT_MAX
  ∧ produce f + 1 <= INT_MAX ∧ consume f + 1 <= INT_MAX.
Proof.
  intros [Hs _ Hq Hc Hp _ _]. unfold INT_MAX in *.
  case_size f Hz; [lia|].
  assert (0 <= produce f < size f) by (rewrite Hp; apply Z.mod_pos_bound; lia).
  lia.
Qed.

(** Read from [consume] on, the slot array is the queue followed by
    [NULL]s. *)
Lemma repr_rotate f q :
  repr e0 f q →
  rotate (Z.to_nat (consume f)) (contents f) =
    (Some <$> q) ++ replicate (Z.to_nat (size f) - length q) None.
Proof.
  intros [Hs Hlen Hq Hc Hp _ Hsl].
  apply list_eq. intros i.
  destruct (decide (i < length (contents f))%nat) as [Hi|Hi].
  - rewrite lookup_rotate_r by done. unfold rotate_nat_add.
    rewrite Hlen, !Z2Nat.id by lia. rewrite Hsl by lia.
    destruct (decide (i < length q)%nat) as [Hiq|Hiq].
    + rewrite lookup_app_l by (by rewrite length_fmap).
      rewrite list_lookup_fmap. by destruct (lookup_lt_is_Some_2 q i Hiq) as [s ->].
    + rewrite lookup_app_r by (rewrite length_fmap; lia).
      rewrite lookup_ge_None_2 by lia.
      symmetry. f_equal. apply lookup_replicate_2. rewrite length_fmap. lia.
  - rewrite !lookup_ge_None_2; [done| |].
    + rewrite length_app, length_fmap, length_replicate. lia.
    + rewrite length_rotate. lia.
Qed.

(** The number of populated slots is the length of the queue. *)
Lemma repr_populated f q :
  repr e0 f q → populated (contents f) = Z.of_nat (length q).
Proof.
  intros H. rewrite <- (populated_rotate (Z.to_nat (consume f))).
  rewrite (repr_rotate _ _ H), populated_app.
  rewrite populated_fmap_Some, populated_replicate_None. lia.
Qed.

(** The queue that a buffer holds is unique. *)
Lemma repr_unique f q1 q2 : repr e0 f q1 → repr e0 f q2 → q1 = q2.
Proof.
  intros H1 H2.
  assert (Hlen : length q1 = length q2).
  { apply Nat2Z.inj.
    by rewrite <- (repr_populated _ _ H1), <- (repr_populated _ _ H2). }
  pose proof (repr_rotate _ _ H1) as E1.
  rewrite (repr_rotate _ _ H2), Hlen in E1.
  apply app_inv_tail in E1.
  by apply (inj (fmap Some)) in E1.
Qed.

(** The store of [fifo_push]. *)
Lemma repr_push f q s :
  repr e0 f q →
  Z.of_nat (length q) < size f →
  repr e0 (mk_fifo (size f) 0 ((produce f + 1) mod size f) (consume f)
             (<[Z.to_nat (produce f) := Some s]> (contents f)))
       (q ++ [s]).
Proof.
  intros [Hs Hlen Hq Hc Hp He Hsl] Hn.
  case_size f Hz; [lia|].
  assert (Hc' : 0 <= consume f < size f) by lia.
  split; cbn; rewrite ?(proj2 (Z.eqb_neq _ _) Hz).
  - done.
  - by rewrite length_insert.
  - rewrite length_app. cbn. lia.
  - done.
  - rewrite Hp, Z.add_mod_idemp_l by lia.
    f_equal. rewrite length_app. cbn. lia.
  - by destruct q.
  - intros k Hk. rewrite Hp.
    destruct (decide (k = length q)) as [->|Hne].
    + rewrite list_lookup_insert_eq.
      * by rewrite list_lookup_middle.
      * rewrite Hlen. pose proof (wrap_range (consume f) (Z.of_nat (length q)) (size f)). lia.
    + rewrite list_lookup_insert_ne.
      * rewrite Hsl by done. f_equal.
        destruct (decide (k < length q)%nat).
        -- by rewrite lookup_app_l.
        -- rewrite !lookup_ge_None_2; [done| |lia]. rewrite length_app. cbn. lia.
      * intros Heq. apply Hne.
        pose proof (wrap_range (consume f) (Z.of_nat (length q)) (size f)).
        pose proof (wrap_range (consume f) (Z.of_nat k) (size f)).
        apply Nat2Z.inj, (wrap_inj (consume f) _ _ (size f)); lia.
Qed.

(** The removal of [fifo_pull]. *)
Lemma repr_pull f q s :
  repr e0 f (s :: q) →
  contents f !! Z.to_nat (consume f) = Some (Some s) ∧
  repr e0 (mk_fifo (size f)
             (if (consume f + 1) mod size f =? produce f then 1 else empty f)
             (produce f) ((consume f + 1) mod size f)
             (<[Z.to_nat (consume f) := None]> (contents f)))
       q.
Proof.
  intros [Hs Hlen Hq Hc Hp He Hsl]. cbn [length] in *.
  case_size f Hz; [lia|].
  assert (Hc' : 0 <= consume f < size f) by lia.
  split.
  { specialize (Hsl O). cbn in Hsl.
    rewrite Z.add_0_r, Z.mod_small in Hsl by lia. apply Hsl. lia. }
  pose proof (wrap_range (consume f) 1 (size f)) as Hr.
  split; cbn; rewrite ?(proj2 (Z.eqb_neq _ _) Hz).
  - done.
  - by rewrite length_insert.
  - lia.
  - lia.
  - rewrite Hp, Z.add_mod_idemp_l by lia. f_equal. lia.
  - rewrite Hp, He. destruct q as [|s' q]; cbn [length] in *.
    + by rewrite Z.eqb_refl.
    + destruct (Z.eqb_spec ((consume f + 1) mod size f)
                  ((consume f + Z.of_nat (S (S (length q)))) mod size f)) as [E|_];
        [|done].
      exfalso. unwrap; lia.
  - intros k Hk. rewrite wrap_shift by lia.
    destruct (decide (Z.of_nat k + 1 = size f)) as [Hlast|Hmid].
    + rewrite Hlast, wrap_add by lia.
      destruct (Z.ltb_spec (consume f + size f) (size f)); [lia|].
      replace (consume f + size f - size f) with (consume f) by lia.
      rewrite list_lookup_insert_eq by lia.
      f_equal. symmetry. apply lookup_ge_None_2. lia.
    + rewrite list_lookup_insert_ne.
      * specialize (Hsl (S k)). rewrite Nat2Z.inj_succ in Hsl.
        unfold Z.succ in Hsl. rewrite Hsl by lia. done.
      * intros Heq.
        pose proof (wrap_range (consume f) (Z.of_nat k + 1) (size f)).
        assert (E : (consume f + 0) mod size f = (consume f + (Z.of_nat k + 1)) mod size f).
        { rewrite Z.add_0_r, Z.mod_small by lia. lia. }
        apply wrap_inj in E; lia.
Qed.

End Representation.

(** ** The last revision: each call on a buffer that holds a queue *)

Lemma repr_produce_range e0 f q :
  repr e0 f q → size f ≠ 0 → 0 <= consume f < size f ∧ 0 <= produce f < size f.
Proof.
  intros [Hs _ Hq Hc Hp _ _] Hz. case_size f Hz'; [done|].
  split; [lia|]. rewrite Hp. apply Z.mod_pos_bound. lia.
Qed.

(** The two indices meet exactly when the queue is empty or full. *)
Lemma repr_indices_meet e0 f q :
  repr e0 f q →
  (produce f = consume f ↔ Z.of_nat (length q) = 0 ∨ Z.of_nat (length q) = size f).
Proof.
  intros [Hs _ Hq Hc Hp _ _]. case_size f Hz; [lia|].
  rewrite Hp. unwrap; lia.
Qed.

Lemma repr_empty_flag e0 f q :
  repr e0 f q → size f ≠ 0 →
  empty f = if Z.of_nat (length q) =? 0 then 1 else 0.
Proof.
  intros [_ _ _ _ _ He _] Hz. case_size f Hz'; [done|].
  rewrite He. by destruct q.
Qed.

Lemma p2_push_space f q :
  repr 0 f q →
  Part002.push_space f = if Z.of_nat (length q) <? size f then 1 else 0.
Proof.
  intros H. unfold Part002.push_space.
  pose proof (repr_indices_meet _ _ _ H) as Hm.
  pose proof (repr_fits _ _ _ H) as Hq.
  destruct (decide (size f = 0)) as [Hz|Hz].
  - destruct H as [_ _ _ Hc Hp He _]. case_size f Hz'; [|done].
    rewrite Hp, Hz. replace (consume f) with 0 by lia. cbn.
    destruct (Z.ltb_spec (Z.of_nat (length q)) 0); [lia|done].
  - pose proof (repr_empty_flag _ _ _ H Hz) as He. rewrite He.
    destruct (Z.eqb_spec (consume f) (produce f)) as [E|E];
      destruct (Z.eqb_spec (Z.of_nat (length q)) 0) as [E0|E0];
      destruct (Z.ltb_spec 0 (size f));
      destruct (Z.ltb_spec (Z.of_nat (length q)) (size f)); cbn; lia.
Qed.

Lemma p2_pull_space f q :
  repr 0 f q →
  Part002.pull_space f = if Z.of_nat (length q) =? 0 then 0 else 1.
Proof.
  intros H. unfold Part002.pull_space.
  pose proof (repr_indices_meet _ _ _ H) as Hm.
  pose proof (repr_fits _ _ _ H) as Hq.
  destruct (decide (size f = 0)) as [Hz|Hz].
  - rewrite (proj2 (Z.eqb_eq _ _) Hz), orb_true_r.
    destruct (Z.eqb_spec (Z.of_nat (length q)) 0); [done|lia].
  - pose proof (repr_empty_flag _ _ _ H Hz) as He. rewrite He.
    rewrite (proj2 (Z.eqb_neq _ _) Hz), orb_false_r.
    destruct (Z.eqb_spec (consume f) (produce f)) as [E|E];
      destruct (Z.eqb_spec (Z.of_nat (length q)) 0) as [E0|E0]; cbn; lia.
Qed.

(** [fifo_push] with [NULL] for the string. *)
Lemma p2_push_null alloc_ok f :
  Part002.fifo_push alloc_ok (Some f) None = Ok (Part002.push_space f, Some f) [].
Proof. reflexivity. Qed.

(** [fifo_push] on a full buffer. *)
Lemma p2_push_full alloc_ok f q s :
  repr 0 f q → Z.of_nat (length q) = size f →
  Part002.fifo_push alloc_ok (Some f) (Some s) = Ok (0, Some f) [].
Proof.
  intros H Hfull. unfold Part002.fifo_push.
  rewrite (p2_push_space _ _ H).
  by destruct (Z.ltb_spec (Z.of_nat (length q)) (size f)); [lia|].
Qed.

(** [fifo_push] when there is room and the allocation fails. *)
Lemma p2_push_nomem f q s :
  repr 0 f q → Z.of_nat (length q) < size f →
  Part002.fifo_push false (Some f) (Some s) =
    Ok (1, Some f) [EvCalloc false; EvStderr].
Proof.
  intros H Hroom. unfold Part002.fifo_push.
  rewrite (p2_push_space _ _ H).
  by destruct (Z.ltb_spec (Z.of_nat (length q)) (size f)); [|lia].
Qed.

(** [fifo_push] when there is room and the allocation succeeds. *)
Lemma p2_push_room f q s :
  repr 0 f q → Z.of_nat (length q) < size f →
  ∃ f',
    Part002.fifo_push true (Some f) (Some s) = Ok (1, Some f') [EvCalloc true]
    ∧ repr 0 f' (q ++ [s])
    ∧ size f' = size f
    ∧ contents f' = <[Z.to_nat (produce f) := Some s]> (contents f).
Proof.
  intros H Hroom.
  assert (Hz : size f ≠ 0) by lia.
  destruct (repr_produce_range _ _ _ H Hz) as [Hc Hp].
  pose proof (repr_alloc _ _ _ H) as Hlen.
  pose proof (repr_empty_flag _ _ _ H Hz) as He.
  eexists. split; [|split; [apply (repr_push 0 f q s H Hroom)|done]].
  unfold Part002.fifo_push. rewrite (p2_push_space _ _ H).
  destruct (Z.ltb_spec (Z.of_nat (length q)) (size f)); [|lia].
  cbn. rewrite slot_write_ok by lia. rewrite c_rem_succ by lia. cbn.
  do 3 f_equal. rewrite He.
  by destruct (Z.of_nat (length q) =? 0).
Qed.

(** [fifo_pull] on an empty buffer. *)
Lemma p2_pull_empty f :
  repr 0 f [] → Part002.fifo_pull (Some f) = Ok (None, Some f) [].
Proof.
  intros H. unfold Part002.fifo_pull. by rewrite (p2_pull_space _ _ H).
Qed.

(** [fifo_pull] on a buffer that holds a string. *)
Lemma p2_pull_some f q s :
  repr 0 f (s :: q) →
  ∃ f',
    Part002.fifo_pull (Some f) = Ok (Some s, Some f') []
    ∧ repr 0 f' q
    ∧ size f' = size f
    ∧ contents f' = <[Z.to_nat (consume f) := None]> (contents f).
Proof.
  intros H.
  pose proof (repr_fits _ _ _ H) as Hq. cbn [length] in Hq.
  assert (Hz : size f ≠ 0) by lia.
  destruct (repr_produce_range _ _ _ H Hz) as [Hc Hp].
  pose proof (repr_alloc _ _ _ H) as Hlen.
  destruct (repr_pull 0 f q s H) as [Hrd Hrepr].
  eexists. split; [|split; [apply Hrepr|done]].
  unfold Part002.fifo_pull. rewrite (p2_pull_space _ _ H).
  cbn [length]. destruct (Z.eqb_spec (Z.of_nat (S (length q))) 0); [lia|].
  cbn. rewrite (slot_read_ok _ _ _ (proj1 Hc) Hrd). cbn.
  rewrite slot_write_ok by lia. rewrite c_rem_succ by lia. done.
Qed.

(** [fifo_new] in both revisions, for a capacity that is not negative. *)
Lemma p2_new_ok c :
  0 <= c →
  Part002.fifo_new true c =
    Ok (Some (mk_fifo c (if 0 <? c then 1 else 0) 0 0 (replicate (Z.to_nat c) None)))
       [EvCalloc true].
Proof.
  intros Hc. unfold Part002.fifo_new.
  by destruct (Z.ltb_spec c 0); [lia|].
Qed.

Lemma p1_new_ok c :
  0 <= c →
  Part001.fifo_new true c =
    Ok (Some (mk_fifo c 1 0 0 (replicate (Z.to_nat c) None))) [EvCalloc true].
Proof.
  intros Hc. unfold Part001.fifo_new.
  by destruct (Z.ltb_spec c 0); [lia|].
Qed.

(** Every reachable state of the last revision holds a queue. *)
Lemma p2_reachable_repr c f :
  Part002.reachable c f → 0 <= c ∧ size f = c ∧ ∃ q, repr 0 f q.
Proof.
  induction 1 as [f tr Hmax Hnew
                 |f alloc_ok str r f' tr _ (Hc & Hsz & q & Hq) Hpush
                 |f r f' tr _ (Hc & Hsz & q & Hq) Hpull].
  - destruct (Z.ltb_spec c 0) as [Hneg|Hpos].
    { unfold Part002.fifo_new in Hnew.
      by destruct (Z.ltb_spec c 0); [|lia]. }
    rewrite p2_new_ok in Hnew by done. injection Hnew as <- _.
    split; [done|]. split; [done|]. exists [].
    apply repr_new; [lia|].
    by destruct (Z.eqb_spec c 0), (Z.ltb_spec 0 c); try lia.
  - split; [done|]. destruct str as [s|].
    + destruct (decide (Z.of_nat (length q) < size f)) as [Hroom|Hfull].
      * destruct alloc_ok.
        -- destruct (p2_push_room f q s Hq Hroom) as (f1 & E & Hq1 & Hsz1 & _).
           rewrite E in Hpush. injection Hpush as _ <- _.
           split; [congruence|]. by exists (q ++ [s]).
        -- rewrite (p2_push_nomem f q s Hq Hroom) in Hpush.
           injection Hpush as _ <- _. split; [done|]. by exists q.
      * pose proof (repr_fits _ _ _ Hq).
        rewrite (p2_push_full alloc_ok f q s Hq) in Hpush by lia.
        injection Hpush as _ <- _. split; [done|]. by exists q.
    + rewrite p2_push_null in Hpush. injection Hpush as _ <- _.
      split; [done|]. by exists q.
  - split; [done|]. destruct q as [|s q].
    + rewrite (p2_pull_empty f Hq) in Hpull. injection Hpull as _ <- _.
      split; [done|]. by exists [].
    + destruct (p2_pull_some f q s Hq) as (f1 & E & Hq1 & Hsz1 & _).
      rewrite E in Hpull. injection Hpull as _ <- _.
      split; [congruence|]. by exists q.
Qed.

(** In every reachable state the [int] fields, and the sums [produce + 1]
    and [consume + 1] that the calls compute, lie within [0, INT_MAX]. *)
Lemma p2_reachable_int_range c f :
  Part002.reachable c f →
  0 <= size f <= INT_MAX ∧ 0 <= produce f <= INT_MAX ∧ 0 <= consume f <= INT_MAX
  ∧ produce f + 1 <= INT_MAX ∧ consume f + 1 <= INT_MAX.
Proof.
  intros Hr. destruct (p2_reachable_repr _ _ Hr) as (_ & _ & q & Hq).
  by apply (repr_int_range 0 f q).
Qed.

(** Sequences of calls on a buffer that holds a queue. *)
Lemma p2_push_all_repr vs : ∀ f q,
  repr 0 f q →
  Z.of_nat (length q) + Z.of_nat (length vs) <= size f →
  ∃ f1 tr,
    Part002.push_all (Some f) vs = Ok (replicate (length vs) 1, Some f1) tr
    ∧ repr 0 f1 (q ++ vs) ∧ size f1 = size f.
Proof.
  induction vs as [|v vs IH]; intros f q Hq Hroom.
  - exists f, []. by rewrite app_nil_r.
  - cbn [length] in Hroom.
    destruct (p2_push_room f q v Hq) as (f' & E & Hq' & Hsz & _); [lia|].
    destruct (IH f' (q ++ [v]) Hq') as (f1 & tr & E1 & Hq1 & Hsz1).
    { rewrite length_app. cbn. lia. }
    exists f1, ([EvCalloc true] ++ tr ++ []).
    rewrite <- app_assoc in Hq1. split; [|split; [done|congruence]].
    cbn [Part002.push_all]. rewrite E. cbn. by rewrite E1.
Qed.

Lemma p2_pull_n_repr vs : ∀ f q,
  repr 0 f (vs ++ q) →
  ∃ f2 tr,
    Part002.pull_n (Some f) (length vs) = Ok (Some <$> vs, Some f2) tr
    ∧ repr 0 f2 q ∧ size f2 = size f.
Proof.
  induction vs as [|v vs IH]; intros f q Hq.
  - by exists f, [].
  - destruct (p2_pull_some f (vs ++ q) v Hq) as (f' & E & Hq' & Hsz & _).
    destruct (IH f' q Hq') as (f2 & tr & E2 & Hq2 & Hsz2).
    exists f2, ([] ++ tr ++ []). split; [|split; [done|congruence]].
    cbn [Part002.pull_n length]. rewrite E. cbn. by rewrite E2.
Qed.

(** ** The revision with [fifo_filled]: each call on a buffer that holds a queue *)

(** [fifo_filled] returns the length of the queue. *)
Lemma p1_filled f q :
  repr 1 f q → Part001.fifo_filled (Some f) = Z.of_nat (length q).
Proof.
  intros H. unfold Part001.fifo_filled.
  pose proof (repr_fits _ _ _ H) as Hq.
  destruct (decide (size f = 0)) as [Hz|Hz].
  - destruct H as [_ _ _ Hc Hp He _]. case_size f Hz'; [|done].
    rewrite Hp, He. replace (consume f) with 0 by lia. cbn. lia.
  - pose proof (repr_empty_flag _ _ _ H Hz) as He.
    destruct (repr_produce_range _ _ _ H Hz) as [Hc _].
    destruct H as [Hs _ _ _ Hp _ _]. case_size f Hz'; [done|].
    rewrite He, Hp. clear He Hp.
    destruct (Z.eqb_spec (Z.of_nat (length q)) 0) as [E0|E0]; cbn [Z.eqb Pos.eqb];
      rewrite wrap_add by lia;
      destruct (Z.ltb_spec (consume f + Z.of_nat (length q)) (size f));
      repeat match goal with
             | |- context [?a >? ?b] => destruct (Z.gtb_spec a b)
             | |- context [?a <? ?b] => destruct (Z.ltb_spec a b)
             end; lia.
Qed.

Lemma p1_push_null alloc_ok f :
  Part001.fifo_push alloc_ok (Some f) None =
    Ok (size f - Part001.fifo_filled (Some f), Some f) [].
Proof. reflexivity. Qed.

Lemma p1_push_full alloc_ok f q s :
  repr 1 f q → Z.of_nat (length q) = size f →
  Part001.fifo_push alloc_ok (Some f) (Some s) = Ok (0, Some f) [].
Proof.
  intros H Hfull. unfold Part001.fifo_push.
  rewrite (p1_filled _ _ H).
  by destruct (Z.leb_spec (size f - Z.of_nat (length q)) 0); [|lia].
Qed.

(** The test of [fifo_push] when the queue leaves room. *)
Lemma p1_push_guard f q :
  repr 1 f q → Z.of_nat (length q) < size f →
  (size f - Z.of_nat (length q) <=? 0)
  || ((size f - Z.of_nat (length q) =? size f) && (empty f =? 0)) = false.
Proof.
  intros H Hroom.
  rewrite (repr_empty_flag _ _ _ H) by lia.
  destruct (Z.leb_spec (size f - Z.of_nat (length q)) 0); [lia|].
  destruct (Z.eqb_spec (size f - Z.of_nat (length q)) (size f)) as [E|E]; [|done].
  by destruct (Z.eqb_spec (Z.of_nat (length q)) 0); [|lia].
Qed.

Lemma p1_push_room f q s :
  repr 1 f q → Z.of_nat (length q) < size f →
  ∃ f',
    Part001.fifo_push true (Some f) (Some s) =
      Ok (size f - Z.of_nat (length q), Some f') [EvCalloc true]
    ∧ repr 1 f' (q ++ [s])
    ∧ size f' = size f
    ∧ contents f' = <[Z.to_nat (produce f) := Some s]> (contents f).
Proof.
  intros H Hroom.
  assert (Hz : size f ≠ 0) by lia.
  destruct (repr_produce_range _ _ _ H Hz) as [Hc Hp].
  pose proof (repr_alloc _ _ _ H) as Hlen.
  eexists. split; [|split; [apply (repr_push 1 f q s H Hroom)|done]].
  unfold Part001.fifo_push.
  rewrite (p1_filled _ _ H), (p1_push_guard _ _ H Hroom).
  cbn. rewrite slot_write_ok by lia. by rewrite c_rem_succ by lia.
Qed.

(** The allocation fails: [memcpy] writes through [NULL]. *)
Lemma p1_push_nomem f q s :
  repr 1 f q → Z.of_nat (length q) < size f →
  Part001.fifo_push false (Some f) (Some s) = Fault NullDeref [EvCalloc false].
Proof.
  intros H Hroom. unfold Part001.fifo_push.
  by rewrite (p1_filled _ _ H), (p1_push_guard _ _ H Hroom).
Qed.

Lemma p1_pull_empty f :
  repr 1 f [] → Part001.fifo_pull (Some f) = Ok (None, Some f) [].
Proof.
  intros H. unfold Part001.fifo_pull. by rewrite (p1_filled _ _ H).
Qed.

Lemma p1_pull_some f q s :
  repr 1 f (s :: q) →
  ∃ f',
    Part001.fifo_pull (Some f) = Ok (Some s, Some f') []
    ∧ repr 1 f' q
    ∧ size f' = size f
    ∧ contents f' = <[Z.to_nat (consume f) := None]> (contents f).
Proof.
  intros H.
  pose proof (repr_fits _ _ _ H) as Hq. cbn [length] in Hq.
  assert (Hz : size f ≠ 0) by lia.
  destruct (repr_produce_range _ _ _ H Hz) as [Hc Hp].
  pose proof (repr_alloc _ _ _ H) as Hlen.
  destruct (repr_pull 1 f q s H) as [Hrd Hrepr].
  eexists. split; [|split; [apply Hrepr|done]].
  unfold Part001.fifo_pull. rewrite (p1_filled _ _ H).
  cbn [length]. destruct (Z.leb_spec (Z.of_nat (S (length q))) 0); [lia|].
  cbn. rewrite (slot_read_ok _ _ _ (proj1 Hc) Hrd). cbn.
  rewrite slot_write_ok by lia. by rewrite c_rem_succ by lia.
Qed.

(** Every state in a history holds a queue, whose length is the number of
    strings stored minus the number of strings removed. *)
Lemma p1_history_repr c f pushes pulls :
  Part001.history c f pushes pulls →
  0 <= c ∧ size f = c ∧ ∃ q, repr 1 f q ∧ Z.of_nat (length q) = pushes - pulls.
Proof.
  induction 1 as [f tr Hmax Hnew
                 |f pushes pulls alloc_ok str r f' tr _ (Hc & Hsz & q & Hq & Hn) Hpush
                 |f pushes pulls r f' tr _ (Hc & Hsz & q & Hq & Hn) Hpull].
  - destruct (Z.ltb_spec c 0) as [Hneg|Hpos].
    { unfold Part001.fifo_new in Hnew.
      by destruct (Z.ltb_spec c 0); [|lia]. }
    rewrite p1_new_ok in Hnew by done. injection Hnew as <- _.
    split; [done|]. split; [done|]. exists []. split; [|done].
    apply repr_new; [lia|]. by destruct (c =? 0).
  - split; [done|]. destruct str as [s|].
    + destruct (decide (Z.of_nat (length q) < size f)) as [Hroom|Hfull].
      * destruct alloc_ok.
        -- destruct (p1_push_room f q s Hq Hroom) as (f1 & E & Hq1 & Hsz1 & _).
           rewrite E in Hpush. injection Hpush as <- <- _.
           split; [congruence|]. exists (q ++ [s]). split; [done|].
           rewrite length_app. cbn.
           destruct (Z.eqb_spec (size f - Z.of_nat (length q)) 0); cbn; lia.
        -- by rewrite (p1_push_nomem f q s Hq Hroom) in Hpush.
      * pose proof (repr_fits _ _ _ Hq).
        rewrite (p1_push_full alloc_ok f q s Hq) in Hpush by lia.
        injection Hpush as <- <- _. split; [done|]. exists q.
        split; [done|]. cbn. lia.
    + rewrite p1_push_null in Hpush. injection Hpush as _ <- _.
      split; [done|]. exists q. split; [done|]. cbn. lia.
  - split; [done|]. destruct q as [|s q].
    + rewrite (p1_pull_empty f Hq) in Hpull. injection Hpull as <- <- _.
      split; [done|]. exists []. split; [done|]. cbn in *. lia.
    + destruct (p1_pull_some f q s Hq) as (f1 & E & Hq1 & Hsz1 & _).
      rewrite E in Hpull. injection Hpull as <- <- _.
      split; [congruence|]. exists q. split; [done|]. cbn in *. lia.
Qed.

(** * The claims *)

Lemma fifo2_reachable : Part002.reachable 2 fifo2.
Proof. by apply (Part002.reach_new 2 fifo2 [EvCalloc true]). Qed.

Lemma fifo0_reachable : Part002.reachable 0 fifo0.
Proof. by apply (Part002.reach_new 0 fifo0 [EvCalloc true]). Qed.

Lemma fifo2_history : Part001.history 2 fifo2 0 0.
Proof. by apply (Part001.hist_new 2 fifo2 [EvCalloc true]). Qed.

(** C1 (FIFO order, last revision).  Take a buffer of capacity [c] in a
    reachable state that holds no string, and [n <= c] strings [vs].
    Pushing them in a row succeeds every time (each call returns 1), and
    [n] calls of [fifo_pull] then return exactly [vs], in the order pushed,
    each string equal to the one pushed; the buffer is empty again. *)
Theorem fifo_order c f (vs : list string) :
  Part002.reachable c f →
  populated (contents f) = 0 →
  Z.of_nat (length vs) <= c →
  ∃ f1 tr1 f2 tr2,
    Part002.push_all (Some f) vs = Ok (replicate (length vs) 1, Some f1) tr1
    ∧ Part002.pull_n (Some f1) (length vs) = Ok (Some <$> vs, Some f2) tr2
    ∧ populated (contents f2) = 0.
Proof.
  intros Hr Hocc Hn.
  destruct (p2_reachable_repr _ _ Hr) as (Hc & Hsz & q & Hq).
  rewrite (repr_populated _ _ _ Hq) in Hocc.
  destruct q as [|? ?]; [|cbn in Hocc; lia].
  destruct (p2_push_all_repr vs f [] Hq) as (f1 & tr1 & E1 & Hq1 & Hsz1);
    [cbn; lia|].
  cbn [app] in Hq1. rewrite <- (app_nil_r vs) in Hq1.
  destruct (p2_pull_n_repr vs f1 [] Hq1) as (f2 & tr2 & E2 & Hq2 & Hsz2).
  exists f1, tr1, f2, tr2. split; [done|]. split; [done|].
  by rewrite (repr_populated _ _ _ Hq2).
Qed.

Lemma fifo_order_witness :
  Part002.reachable 2 fifo2
  ∧ populated (contents fifo2) = 0
  ∧ Z.of_nat (length ["a"; "b"]) <= 2
  ∧ ∃ f1 tr1 f2 tr2,
      Part002.push_all (Some fifo2) ["a"; "b"] = Ok ([1; 1], Some f1) tr1
      ∧ Part002.pull_n (Some f1) 2 = Ok ([Some "a"; Some "b"], Some f2) tr2
      ∧ populated (contents f2) = 0.
Proof.
  split; [exact fifo2_reachable|]. split; [reflexivity|].
  split; [by vm_compute|].
  apply (fifo_order 2 fifo2 ["a"; "b"]);
    [exact fifo2_reachable | reflexivity | by vm_compute].
Defined.

(** C3 (a full buffer rejects, last revision).  In a reachable state whose
    occupancy equals the capacity, [fifo_push] of any string returns 0,
    allocates nothing and leaves the whole structure as it was.  If the
    capacity is not zero, [fifo_pull] then removes a string, and after any
    such removal the next [fifo_push] (the allocation succeeding) returns a
    value that is not zero and stores its argument in the slot at
    [produce]. *)
Theorem full_push_rejected c f :
  Part002.reachable c f →
  populated (contents f) = size f →
  (∀ alloc_ok s,
     Part002.fifo_push alloc_ok (Some f) (Some s) = Ok (0, Some f) [])
  ∧ (0 < size f → ∃ v f1, Part002.fifo_pull (Some f) = Ok (Some v, Some f1) [])
  ∧ (∀ v f1 tr s,
       Part002.fifo_pull (Some f) = Ok (Some v, Some f1) tr →
       ∃ r f2,
         Part002.fifo_push true (Some f1) (Some s) = Ok (r, Some f2) [EvCalloc true]
         ∧ r ≠ 0
         ∧ contents f2 = <[Z.to_nat (produce f1) := Some s]> (contents f1)
         ∧ populated (contents f2) = populated (contents f1) + 1).
Proof.
  intros Hr Hocc.
  destruct (p2_reachable_repr _ _ Hr) as (Hc & Hsz & q & Hq).
  rewrite (repr_populated _ _ _ Hq) in Hocc.
  split; [|split].
  - intros alloc_ok s. by apply (p2_push_full alloc_ok f q).
  - intros Hpos. destruct q as [|v q]; [cbn in Hocc; lia|].
    destruct (p2_pull_some f q v Hq) as (f1 & E & _). by exists v, f1.
  - intros v f1 tr s Hpull. destruct q as [|v' q].
    { by rewrite (p2_pull_empty f Hq) in Hpull. }
    destruct (p2_pull_some f q v' Hq) as (f1' & E & Hq1 & Hsz1 & _).
    rewrite E in Hpull. injection Hpull as _ <- _.
    cbn [length] in Hocc.
    destruct (p2_push_room f1' q s Hq1) as (f2 & E2 & Hq2 & _ & Hcs); [lia|].
    exists 1, f2. split; [done|]. split; [done|]. split; [done|].
    rewrite (repr_populated _ _ _ Hq2), (repr_populated _ _ _ Hq1), length_app.
    cbn. lia.
Qed.

Lemma fifo1_full_reachable : Part002.reachable 1 fifo1_full.
Proof.
  apply (Part002.reach_push 1 (mk_fifo 1 1 0 0 [None]) true (Some "a") 1 _
           [EvCalloc true]); [|reflexivity].
  by apply (Part002.reach_new 1 _ [EvCalloc true]).
Qed.

Lemma full_push_rejected_witness :
  Part002.reachable 1 fifo1_full
  ∧ populated (contents fifo1_full) = size fifo1_full
  ∧ Part002.fifo_push true (Some fifo1_full) (Some "b") = Ok (0, Some fifo1_full) [].
Proof.
  split; [exact fifo1_full_reachable|]. split; [reflexivity|].
  apply (proj1 (full_push_rejected 1 fifo1_full fifo1_full_reachable eq_refl)).
Defined.

(** C4, as the code has it (last revision).  In every state reachable from
    [fifo_new(c)]: the occupancy lies in [0, c]; the two indices are equal
    exactly when the occupancy is 0 or [c]; when [c > 0] the flag [empty] is
    1 exactly when the occupancy is 0, and is 0 otherwise; when [c = 0] the
    flag [empty] is 0 although the occupancy is 0. *)
Theorem reachable_invariant c f :
  Part002.reachable c f →
  size f = c
  ∧ 0 <= populated (contents f) <= c
  ∧ (produce f = consume f ↔
       populated (contents f) = 0 ∨ populated (contents f) = c)
  ∧ (0 < c → (empty f = 1 ↔ populated (contents f) = 0) ∧ (empty f = 0 ∨ empty f = 1))
  ∧ (c = 0 → empty f = 0 ∧ populated (contents f) = 0).
Proof.
  intros Hr.
  destruct (p2_reachable_repr _ _ Hr) as (Hc & Hsz & q & Hq).
  rewrite (repr_populated _ _ _ Hq).
  pose proof (repr_fits _ _ _ Hq) as Hfits.
  split; [done|]. split; [lia|]. split; [|split].
  - rewrite <- Hsz. apply (repr_indices_meet _ _ _ Hq).
  - intros Hpos. rewrite (repr_empty_flag _ _ _ Hq) by lia.
    destruct (Z.eqb_spec (Z.of_nat (length q)) 0); lia.
  - intros ->. destruct Hq as [_ _ _ _ _ He _].
    rewrite Hsz in He. cbn in He. lia.
Qed.

Lemma reachable_invariant_witness :
  Part002.reachable 1 fifo1_full
  ∧ size fifo1_full = 1
  ∧ 0 <= populated (contents fifo1_full) <= 1
  ∧ (produce fifo1_full = consume fifo1_full ↔
       populated (contents fifo1_full) = 0 ∨ populated (contents fifo1_full) = 1)
  ∧ (0 < 1 → (empty fifo1_full = 1 ↔ populated (contents fifo1_full) = 0)
             ∧ (empty fifo1_full = 0 ∨ empty fifo1_full = 1))
  ∧ (1 = 0 → empty fifo1_full = 0 ∧ populated (contents fifo1_full) = 0).
Proof.
  split; [exact fifo1_full_reachable|].
  exact (reachable_invariant 1 fifo1_full fifo1_full_reachable).
Defined.

(** C4 as stated fails: the buffer that [fifo_new(0)] returns is reachable,
    holds no string, and its flag [empty] is not 1. *)
Lemma empty_flag_counterexample :
  Part002.fifo_new true 0 = Ok (Some fifo0) [EvCalloc true]
  ∧ Part002.reachable 0 fifo0
  ∧ populated (contents fifo0) = 0
  ∧ ¬ (empty fifo0 = 1 ↔ populated (contents fifo0) = 0).
Proof.
  split; [reflexivity|]. split; [exact fifo0_reachable|]. split; [reflexivity|].
  intros [_ H]. by specialize (H eq_refl).
Qed.

(** C5, as the code has it.  With a negative capacity [fifo_new] returns
    [NULL] without calling the allocator, in both revisions.  With a
    capacity [c >= 0] and the allocation succeeding it returns a buffer of
    [c] slots, all [NULL], with [produce = consume = 0]; the flag [empty] is
    1 in the revision with [fifo_filled], and in the last revision it is 1
    when [c > 0] and 0 when [c = 0].  When the allocation fails it returns
    [NULL] after a message on [stderr]. *)
Theorem fifo_new_result c :
  (c < 0 →
     ∀ alloc_ok,
       Part002.fifo_new alloc_ok c = Ok None []
       ∧ Part001.fifo_new alloc_ok c = Ok None [])
  ∧ (0 <= c →
       Part002.fifo_new true c =
         Ok (Some (mk_fifo c (if 0 <? c then 1 else 0) 0 0
                     (replicate (Z.to_nat c) None))) [EvCalloc true]
       ∧ Part001.fifo_new true c =
         Ok (Some (mk_fifo c 1 0 0 (replicate (Z.to_nat c) None))) [EvCalloc true]
       ∧ Part002.fifo_new false c = Ok None [EvCalloc false; EvStderr]
       ∧ Part001.fifo_new false c = Ok None [EvCalloc false; EvStderr]).
Proof.
  split.
  - intros Hneg alloc_ok. unfold Part002.fifo_new, Part001.fifo_new.
    by destruct (Z.ltb_spec c 0); [|lia].
  - intros Hpos. split; [by apply p2_new_ok|]. split; [by apply p1_new_ok|].
    unfold Part002.fifo_new, Part001.fifo_new.
    by destruct (Z.ltb_spec c 0); [lia|].
Qed.

Lemma fifo_new_result_witness :
  (-1 < 0 ∧ Part002.fifo_new true (-1) = Ok None [])
  ∧ (0 <= 2 ∧ Part002.fifo_new true 2 = Ok (Some fifo2) [EvCalloc true]).
Proof.
  split.
  - split; [lia|]. apply (proj1 (fifo_new_result (-1))). lia.
  - split; [lia|]. apply (proj2 (fifo_new_result 2)). lia.
Defined.

(** C5 as stated fails at capacity 0 in the last revision: the buffer that
    [fifo_new(0)] returns has [empty = 0]. *)
Lemma fifo_new_counterexample :
  ∃ f tr, Part002.fifo_new true 0 = Ok (Some f) tr ∧ empty f ≠ 1.
Proof. exists fifo0, [EvCalloc true]. by split. Qed.

(** C6 (capacity 0, last revision).  In every state reachable from
    [fifo_new(0)], [fifo_push] of any string returns 0 and [fifo_pull]
    returns [NULL]; neither changes the structure nor calls the allocator.
    As this holds in every reachable state, no sequence of calls ends it. *)
Theorem capacity_zero_inert f :
  Part002.reachable 0 f →
  ∀ alloc_ok s,
    Part002.fifo_push alloc_ok (Some f) (Some s) = Ok (0, Some f) []
    ∧ Part002.fifo_pull (Some f) = Ok (None, Some f) [].
Proof.
  intros Hr alloc_ok s.
  destruct (p2_reachable_repr _ _ Hr) as (_ & Hsz & q & Hq).
  pose proof (repr_fits _ _ _ Hq) as Hfits.
  destruct q as [|? ?]; [|cbn in Hfits; lia].
  split.
  - apply (p2_push_full alloc_ok f [] s Hq). cbn. lia.
  - by apply p2_pull_empty.
Qed.

Lemma capacity_zero_inert_witness :
  Part002.reachable 0 fifo0
  ∧ Part002.fifo_push true (Some fifo0) (Some "a") = Ok (0, Some fifo0) []
  ∧ Part002.fifo_pull (Some fifo0) = Ok (None, Some fifo0) [].
Proof.
  split; [exact fifo0_reachable|].
  exact (capacity_zero_inert fifo0 fifo0_reachable true "a").
Defined.

(** C8 (the occupancy query, revision with [fifo_filled]).  [fifo_filled]
    computes what the specification words: [produce - consume] when
    [produce > consume], [size - consume + produce] when [produce < consume],
    and, the indices being equal, 0 when [empty] is 1 and [size] otherwise.
    It reads the four scalar fields only: the slot array has no influence on
    its result; and, being a function of the structure that returns a
    number, it changes nothing.  After any sequence of calls from [fifo_new]
    the value is the number of populated slots, is the number of pushes
    that stored a string minus the number of pulls that removed one, and
    lies in [0, capacity]. *)
Theorem fifo_filled_occupancy :
  (∀ f, Part001.fifo_filled (Some f) = Part001.occupancy_spec f)
  ∧ (∀ f slots,
       Part001.fifo_filled
         (Some (mk_fifo (size f) (empty f) (produce f) (consume f) slots)) =
       Part001.fifo_filled (Some f))
  ∧ (∀ c f pushes pulls,
       Part001.history c f pushes pulls →
       Part001.fifo_filled (Some f) = populated (contents f)
       ∧ Part001.fifo_filled (Some f) = pushes - pulls
       ∧ 0 <= Part001.fifo_filled (Some f) <= c).
Proof.
  split; [|split].
  - intros f. unfold Part001.fifo_filled, Part001.occupancy_spec.
    by rewrite Z.gtb_ltb.
  - done.
  - intros c f pushes pulls Hh.
    destruct (p1_history_repr _ _ _ _ Hh) as (Hc & Hsz & q & Hq & Hn).
    pose proof (repr_fits _ _ _ Hq).
    rewrite (p1_filled _ _ Hq), (repr_populated _ _ _ Hq). lia.
Qed.

Lemma fifo1_full_history : Part001.history 1 fifo1_full (0 + 1) 0.
Proof.
  apply (Part001.hist_push 1 (mk_fifo 1 1 0 0 [None]) 0 0 true (Some "a") 1 _
           [EvCalloc true]); [|reflexivity].
  by apply (Part001.hist_new 1 _ [EvCalloc true]).
Qed.

Lemma fifo_filled_occupancy_witness :
  Part001.history 1 fifo1_full (0 + 1) 0
  ∧ Part001.fifo_filled (Some fifo1_full) = populated (contents fifo1_full)
  ∧ Part001.fifo_filled (Some fifo1_full) = 0 + 1 - 0
  ∧ 0 <= Part001.fifo_filled (Some fifo1_full) <= 1.
Proof.
  split; [exact fifo1_full_history|].
  exact (proj2 (proj2 fifo_filled_occupancy) 1 fifo1_full (0 + 1) 0 fifo1_full_history).
Defined.

(** C2, as the code has it.  In the revision with [fifo_filled], a push
    that finds room (the allocation succeeding) returns the exact number of
    free slots before the insertion, capacity minus occupancy; on the empty
    buffer of capacity 2 the first push returns 2, the second 1 and the
    third is rejected with 0.  In the last revision a push that finds room
    returns 1 whatever the number of free slots; on the empty buffer of
    capacity 2 the first push returns 1, the second 1 and the third 0. *)
Theorem push_return_value :
  (∀ c f pushes pulls s,
     Part001.history c f pushes pulls →
     populated (contents f) < size f →
     ∃ f',
       Part001.fifo_push true (Some f) (Some s) =
         Ok (size f - populated (contents f), Some f') [EvCalloc true]
       ∧ populated (contents f') = populated (contents f) + 1)
  ∧ (∀ c f s,
       Part002.reachable c f →
       populated (contents f) < size f →
       ∃ f',
         Part002.fifo_push true (Some f) (Some s) = Ok (1, Some f') [EvCalloc true]
         ∧ populated (contents f') = populated (contents f) + 1)
  ∧ (∃ f1 f2,
       Part001.fifo_push true (Some fifo2) (Some "a") = Ok (2, Some f1) [EvCalloc true]
       ∧ Part001.fifo_push true (Some f1) (Some "a") = Ok (1, Some f2) [EvCalloc true]
       ∧ Part001.fifo_push true (Some f2) (Some "a") = Ok (0, Some f2) [])
  ∧ (∃ f1 f2,
       Part002.fifo_push true (Some fifo2) (Some "a") = Ok (1, Some f1) [EvCalloc true]
       ∧ Part002.fifo_push true (Some f1) (Some "a") = Ok (1, Some f2) [EvCalloc true]
       ∧ Part002.fifo_push true (Some f2) (Some "a") = Ok (0, Some f2) []).
Proof.
  split; [|split; [|split]].
  - intros c f pushes pulls s Hh Hroom.
    destruct (p1_history_repr _ _ _ _ Hh) as (_ & _ & q & Hq & _).
    rewrite (repr_populated _ _ _ Hq) in *.
    destruct (p1_push_room f q s Hq Hroom) as (f' & E & Hq' & _).
    exists f'. split; [done|].
    rewrite (repr_populated _ _ _ Hq'), length_app. cbn. lia.
  - intros c f s Hr Hroom.
    destruct (p2_reachable_repr _ _ Hr) as (_ & _ & q & Hq).
    rewrite (repr_populated _ _ _ Hq) in *.
    destruct (p2_push_room f q s Hq Hroom) as (f' & E & Hq' & _).
    exists f'. split; [done|].
    rewrite (repr_populated _ _ _ Hq'), length_app. cbn. lia.
  - by exists (mk_fifo 2 0 1 0 [Some "a"; None]),
              (mk_fifo 2 0 0 0 [Some "a"; Some "a"]).
  - by exists (mk_fifo 2 0 1 0 [Some "a"; None]),
              (mk_fifo 2 0 0 0 [Some "a"; Some "a"]).
Qed.

Lemma push_return_value_witness :
  (Part001.history 2 fifo2 0 0
   ∧ populated (contents fifo2) < size fifo2
   ∧ ∃ f',
       Part001.fifo_push true (Some fifo2) (Some "a") =
         Ok (size fifo2 - populated (contents fifo2), Some f') [EvCalloc true]
       ∧ populated (contents f') = populated (contents fifo2) + 1)
  ∧ (Part002.reachable 2 fifo2
     ∧ ∃ f',
         Part002.fifo_push true (Some fifo2) (Some "a") = Ok (1, Some f') [EvCalloc true]
         ∧ populated (contents f') = populated (contents fifo2) + 1).
Proof.
  split.
  - split; [exact fifo2_history|]. split; [by vm_compute|].
    apply (proj1 push_return_value 2 fifo2 0 0 "a" fifo2_history). by vm_compute.
  - split; [exact fifo2_reachable|].
    apply (proj1 (proj2 push_return_value) 2 fifo2 "a" fifo2_reachable).
    by vm_compute.
Defined.

(** C2 as stated fails in the last revision: on the empty buffer of
    capacity 2, which has two free slots, the first push stores its string
    and returns 1. *)
Lemma push_return_counterexample :
  Part002.fifo_new true 2 = Ok (Some fifo2) [EvCalloc true]
  ∧ size fifo2 - populated (contents fifo2) = 2
  ∧ Part002.fifo_push true (Some fifo2) (Some "a") =
      Ok (1, Some (mk_fifo 2 0 1 0 [Some "a"; None])) [EvCalloc true].
Proof. by repeat split. Qed.

(** C9, as the code has it.  In every state, [fifo_push] with [NULL] for
    the string changes nothing and calls nothing.  In the revision with
    [fifo_filled] it returns [size - fifo_filled], which in every state of a
    history is the capacity minus the number of populated slots.  In the
    last revision it returns the flag [space], which in every reachable
    state is 1 when a slot is free and 0 when none is. *)
Theorem push_null_query :
  (∀ alloc_ok f,
     Part001.fifo_push alloc_ok (Some f) None =
       Ok (size f - Part001.fifo_filled (Some f), Some f) [])
  ∧ (∀ c f pushes pulls,
       Part001.history c f pushes pulls →
       size f - Part001.fifo_filled (Some f) = c - populated (contents f))
  ∧ (∀ alloc_ok f,
       Part002.fifo_push alloc_ok (Some f) None =
         Ok (Part002.push_space f, Some f) [])
  ∧ (∀ c f,
       Part002.reachable c f →
       Part002.push_space f = if populated (contents f) <? c then 1 else 0).
Proof.
  split; [|split; [|split]].
  - done.
  - intros c f pushes pulls Hh.
    destruct (p1_history_repr _ _ _ _ Hh) as (_ & Hsz & q & Hq & _).
    rewrite (p1_filled _ _ Hq), (repr_populated _ _ _ Hq). lia.
  - done.
  - intros c f Hr.
    destruct (p2_reachable_repr _ _ Hr) as (_ & Hsz & q & Hq).
    by rewrite (p2_push_space _ _ Hq), (repr_populated _ _ _ Hq), Hsz.
Qed.

Lemma push_null_query_witness :
  (Part001.history 2 fifo2 0 0
   ∧ size fifo2 - Part001.fifo_filled (Some fifo2) = 2 - populated (contents fifo2))
  ∧ (Part002.reachable 2 fifo2
     ∧ Part002.push_space fifo2 = if populated (contents fifo2) <? 2 then 1 else 0).
Proof.
  split.
  - split; [exact fifo2_history|].
    exact (proj1 (proj2 push_null_query) 2 fifo2 0 0 fifo2_history).
  - split; [exact fifo2_reachable|].
    exact (proj2 (proj2 (proj2 push_null_query)) 2 fifo2 fifo2_reachable).
Defined.

(** C9 as stated fails in the last revision: on the empty buffer of
    capacity 2 the free space is 2 and the query returns 1. *)
Lemma push_null_counterexample :
  Part002.fifo_new true 2 = Ok (Some fifo2) [EvCalloc true]
  ∧ size fifo2 - populated (contents fifo2) = 2
  ∧ Part002.fifo_push true (Some fifo2) None = Ok (1, Some fifo2) [].
Proof. by repeat split. Qed.

(** C10, evaluated (last revision).  On the empty buffer of capacity 2,
    [fifo_push] returns 1 and leaves the structure as it was when the
    allocation of the copy fails, and returns the same 1 when the
    allocation succeeds and the string is stored: the value returned does
    not tell the two apart, whereas [fifo_new] returns [NULL] when its
    allocation fails. *)
Theorem push_nomem_returns_success :
  Part002.fifo_push false (Some fifo2) (Some "a") =
    Ok (1, Some fifo2) [EvCalloc false; EvStderr]
  ∧ Part002.fifo_push true (Some fifo2) (Some "a") =
      Ok (1, Some (mk_fifo 2 0 1 0 [Some "a"; None])) [EvCalloc true]
  ∧ Part002.fifo_new false 2 = Ok None [EvCalloc false; EvStderr].
Proof. by repeat split. Qed.

(** ** [fifo_free] *)

Lemma free_loop_exit fuel f e : free_loop fuel f e e 1 = Some (Ok tt []).
Proof. destruct fuel; cbn; by rewrite Z.eqb_refl. Qed.

(** Started [j] slots after [b] with the exit [m] slots after [b], the loop
    of [fifo_free] releases the slots in between, each once and in order,
    when all of them are populated. *)
Lemma free_loop_run f b (m : nat) :
  0 < size f → 0 <= b < size f → Z.of_nat m <= size f →
  ∀ (d j : nat),
    (j + d = m)%nat → (0 < d)%nat →
    (∀ k : nat, (j <= k < m)%nat →
       ∃ v, contents f !! Z.to_nat ((b + Z.of_nat k) mod size f) = Some (Some v)) →
    ∀ fuel, (d <= fuel)%nat →
      free_loop fuel f ((b + Z.of_nat j) mod size f) ((b + Z.of_nat m) mod size f) 0 =
        Some (Ok tt (EvFreeSlot <$> ((λ k : nat, (b + Z.of_nat k) mod size f) <$> seq j d))).
Proof.
  intros Hs Hb Hm. induction d as [|d IH]; intros j Hjd Hd Hpop fuel Hfuel; [lia|].
  destruct fuel as [|fuel]; [lia|].
  destruct (Hpop j) as [v Hv]; [lia|].
  pose proof (wrap_range b (Z.of_nat j) (size f)) as Hr.
  cbn [free_loop]. rewrite orb_true_r.
  rewrite (slot_read_ok _ _ _ (proj1 (Hr ltac:(lia) ltac:(lia))) Hv).
  rewrite c_rem_succ by lia.
  rewrite Z.add_mod_idemp_l by lia.
  replace (b + Z.of_nat j + 1) with (b + Z.of_nat (S j)) by lia.
  destruct (decide (d = 0)%nat) as [->|Hd'].
  - replace (S j) with m by lia. rewrite Z.eqb_refl, free_loop_exit. done.
  - destruct (Z.eqb_spec ((b + Z.of_nat (S j)) mod size f)
                ((b + Z.of_nat m) mod size f)) as [E|_].
    { exfalso. unwrap; lia. }
    rewrite (IH (S j)); [done | lia | lia | | lia].
    intros k Hk. apply Hpop. lia.
Qed.

(** Every slot is some offset after a given one. *)
Lemma wrap_surj c i s :
  0 <= c < s → 0 <= i < s →
  ∃ k : nat, Z.of_nat k < s ∧ (c + Z.of_nat k) mod s = i.
Proof.
  intros Hc Hi.
  exists (Z.to_nat (if c <=? i then i - c else i - c + s)).
  destruct (Z.leb_spec c i); rewrite Z2Nat.id by lia; (split; [lia|]);
    rewrite wrap_add by lia.
  - destruct (Z.ltb_spec (c + (i - c)) s); lia.
  - destruct (Z.ltb_spec (c + (i - c + s)) s); lia.
Qed.

(** The populated slots are the first [length q] slots from [consume] on. *)
Lemma repr_slot_populated e0 f q i :
  repr e0 f q → 0 <= i →
  (∃ v, contents f !! Z.to_nat i = Some (Some v)) ↔
  (∃ k : nat, (k < length q)%nat ∧ (consume f + Z.of_nat k) mod size f = i).
Proof.
  intros H Hi. split.
  - intros [v Hv].
    assert (Hlt : i < size f).
    { apply lookup_lt_Some in Hv. rewrite (repr_alloc _ _ _ H) in Hv. lia. }
    destruct (repr_produce_range _ _ _ H) as [Hc _]; [lia|].
    destruct (wrap_surj (consume f) i (size f)) as (k & Hk & E); [lia..|].
    exists k. split; [|done].
    pose proof (repr_slots _ _ _ H k Hk) as Hsl. rewrite E, Hv in Hsl.
    injection Hsl as Hsl. symmetry in Hsl. by apply lookup_lt_Some in Hsl.
  - intros (k & Hk & <-).
    pose proof (repr_fits _ _ _ H).
    rewrite (repr_slots _ _ _ H k) by lia.
    destruct (lookup_lt_is_Some_2 q k Hk) as [v ->]. by exists v.
Qed.

(** [fifo_free] on a buffer that has slots and holds a queue: the loop ends
    within [size] iterations, and it releases the populated slots, each
    once, and no other slot, before it releases the structure. *)
Lemma free_repr e0 f q :
  repr e0 f q → 0 < size f →
  ∃ slots : list Z,
    (∀ fuel, (Z.to_nat (size f) <= fuel)%nat →
       Part002.fifo_free fuel (Some f) =
         Some (Ok tt ((EvFreeSlot <$> slots) ++ [EvFreeFifo])))
    ∧ NoDup slots
    ∧ ∀ i, i ∈ slots ↔ 0 <= i ∧ ∃ v, contents f !! Z.to_nat i = Some (Some v).
Proof.
  intros H Hs.
  destruct (repr_produce_range _ _ _ H) as [Hc Hp]; [lia|].
  pose proof (repr_fits _ _ _ H) as Hfits.
  pose proof (repr_empty_flag _ _ _ H ltac:(lia)) as He.
  pose proof (repr_indices_meet _ _ _ H) as Hmeet.
  pose proof (repr_produce _ _ _ H) as Hpr.
  rewrite (proj2 (Z.eqb_neq (size f) 0)) in Hpr by lia.
  set (n := length q) in *.
  assert (Hb : ∃ b, 0 <= b < size f
                    ∧ (Z.of_nat n = size f ∧ b = 0
                       ∨ Z.of_nat n ≠ size f ∧ b = consume f)).
  { destruct (decide (Z.of_nat n = size f)).
    - exists 0. split; [lia|]. by left.
    - exists (consume f). split; [lia|]. by right. }
  destruct Hb as (b & Hb & Hcase).
  exists ((λ k : nat, (b + Z.of_nat k) mod size f) <$> seq 0 n).
  assert (Hin : ∀ i,
    i ∈ ((λ k : nat, (b + Z.of_nat k) mod size f) <$> seq 0 n) ↔
    0 <= i ∧ ∃ v, contents f !! Z.to_nat i = Some (Some v)).
  { intros i. rewrite list_elem_of_fmap. split.
    - intros (k & -> & Hk). apply elem_of_seq in Hk.
      pose proof (wrap_range b (Z.of_nat k) (size f)) as Hr.
      split; [lia|]. apply (repr_slot_populated _ _ _ _ H); [lia|].
      destruct Hcase as [[Hfull ->]|[Hpart ->]].
      + destruct (wrap_surj (consume f) ((0 + Z.of_nat k) mod size f) (size f))
          as (k' & Hk' & E); [lia..|].
        exists k'. split; [fold n; lia|done].
      + exists k. split; [fold n; lia|done].
    - intros [Hi Hv].
      assert (Hlt : i < size f).
      { destruct Hv as [v Hv]. apply lookup_lt_Some in Hv.
        rewrite (repr_alloc _ _ _ H) in Hv. lia. }
      apply (repr_slot_populated _ _ _ _ H) in Hv as (k & Hk & E); [|done].
      fold n in Hk.
      destruct Hcase as [[Hfull ->]|[Hpart ->]].
      + exists (Z.to_nat i). rewrite elem_of_seq. split; [|lia].
        by rewrite Z.add_0_l, Z2Nat.id, Z.mod_small by lia.
      + exists k. rewrite elem_of_seq. split; [done|lia]. }
  split; [|split; [|done]].
  - intros fuel Hfuel. unfold Part002.fifo_free. rewrite He.
    destruct (decide (n = 0)%nat) as [Hz|Hnz].
    + rewrite Hz in *. change (Z.of_nat 0 =? 0) with true. cbn iota.
      change (1 =? 0) with false.
      rewrite andb_false_r, (proj2 Hmeet) by lia.
      by rewrite free_loop_exit.
    + destruct (Z.eqb_spec (Z.of_nat n) 0); [lia|].
      assert (E : (if (consume f =? produce f) && (0 =? 0)
                   then (0, 0) else (consume f, produce f)) =
                  ((b + Z.of_nat O) mod size f, (b + Z.of_nat n) mod size f)).
      { cbn [Z.of_nat]. rewrite andb_true_r.
        destruct Hcase as [[Hfull ->]|[Hpart ->]].
        - rewrite (proj2 (Z.eqb_eq _ _)) by (symmetry; apply Hmeet; lia).
          rewrite Z.add_0_l, Z.mod_0_l by lia. rewrite Hfull.
          by rewrite Z.mod_same by lia.
        - rewrite (proj2 (Z.eqb_neq _ _))
            by (intros E; symmetry in E; apply Hmeet in E; lia).
          rewrite Z.add_0_r, Z.mod_small by lia. by rewrite Hpr. }
      rewrite E.
      rewrite (free_loop_run f b n Hs Hb Hfits n O); [done|lia|lia| |lia].
      intros k Hk. apply Hin. apply list_elem_of_fmap. exists k.
      split; [done|]. apply elem_of_seq. lia.
  - apply NoDup_fmap_2_strong; [|apply NoDup_seq].
    intros k1 k2 Hk1 Hk2 E. apply elem_of_seq in Hk1, Hk2.
    apply Nat2Z.inj. apply (wrap_inj b _ _ (size f)); lia.
Qed.

(** [fifo_free(NULL)] does nothing, in both revisions. *)
Lemma fifo_free_null fuel :
  Part002.fifo_free fuel None = Some (Ok tt [])
  ∧ Part001.fifo_free fuel None = Some (Ok tt []).
Proof. by split. Qed.

(** X6.  The last revision, on a buffer with slots in any reachable state:
    [fifo_free] returns, releases each populated slot once and no other
    slot, never divides by zero and never leaves the slot array. *)
Lemma p2_free_reachable c f :
  Part002.reachable c f → 0 < c →
  ∃ slots : list Z,
    (∀ fuel, (Z.to_nat c <= fuel)%nat →
       Part002.fifo_free fuel (Some f) =
         Some (Ok tt ((EvFreeSlot <$> slots) ++ [EvFreeFifo])))
    ∧ NoDup slots
    ∧ ∀ i, i ∈ slots ↔ 0 <= i ∧ ∃ v, contents f !! Z.to_nat i = Some (Some v).
Proof.
  intros Hr Hpos.
  destruct (p2_reachable_repr _ _ Hr) as (_ & <- & q & Hq).
  by apply (free_repr 0 f q).
Qed.

(** X7.  The revision with [fifo_filled], at every capacity, 0 included,
    and in any state of a history: [fifo_free] returns within [size]
    iterations, releases each populated slot once and no other slot, then
    the structure; it never divides by zero and never leaves the slot
    array. *)
Lemma p1_free_history c f pushes pulls :
  Part001.history c f pushes pulls →
  ∃ slots : list Z,
    (∀ fuel, (Z.to_nat c <= fuel)%nat →
       Part001.fifo_free fuel (Some f) =
         Some (Ok tt ((EvFreeSlot <$> slots) ++ [EvFreeFifo])))
    ∧ NoDup slots
    ∧ ∀ i, i ∈ slots ↔ 0 <= i ∧ ∃ v, contents f !! Z.to_nat i = Some (Some v).
Proof.
  intros Hh.
  destruct (p1_history_repr _ _ _ _ Hh) as (Hc & <- & q & Hq & _).
  destruct (decide (size f = 0)) as [Hz|Hz].
  - exists []. pose proof (repr_fits _ _ _ Hq) as Hfits.
    pose proof (repr_alloc _ _ _ Hq) as Hlen.
    destruct Hq as [_ _ _ Hco Hpr He _].
    rewrite (proj2 (Z.eqb_eq _ _) Hz) in Hpr, He.
    split; [|split; [constructor|]].
    + intros fuel _. unfold Part001.fifo_free. rewrite Hpr, He.
      replace (consume f) with 0 by lia. cbn. by rewrite free_loop_exit.
    + intros i. split; [by intros ?%elem_of_nil|].
      intros [_ [v Hv]]. apply lookup_lt_Some in Hv. lia.
  - apply (free_repr 1 f q Hq). lia.
Qed.

(** C7, evaluated (last revision).  [fifo_new(0)] returns a buffer without
    slots whose flag [empty] is 0.  On it the loop of [fifo_free] is
    entered, whatever the fuel: its first statement reads [contents[0]],
    outside the slot array, and its next statement computes
    [(curr + 1) % fifo->size] with [size = 0]. *)
Theorem fifo_free_capacity_zero_faults :
  Part002.fifo_new true 0 = Ok (Some fifo0) [EvCalloc true]
  ∧ (∀ fuel, Part002.fifo_free (S fuel) (Some fifo0) = Some (Fault (OutOfBounds 0) []))
  ∧ c_rem (consume fifo0 + 1) (size fifo0) = Fault DivByZero [].
Proof. by repeat split. Qed.

(** ** The author's tests, replayed on the embedding

    [main] of the last revision checks the fields after each group of
    calls; the embedding gives the same values. *)

(** Capacity 0: [TEST(!fifo_push(fifo, "a"))], [TEST(str == NULL)] and
    [TEST(consume == produce && empty == 0 && produce == 0)]. *)
Example main_capacity_0 :
  Part002.fifo_new true 0 = Ok (Some fifo0) [EvCalloc true]
  ∧ Part002.fifo_push true (Some fifo0) (Some "a") = Ok (0, Some fifo0) []
  ∧ Part002.fifo_pull (Some fifo0) = Ok (None, Some fifo0) []
  ∧ consume fifo0 = produce fifo0 ∧ empty fifo0 = 0 ∧ produce fifo0 = 0.
Proof. by repeat split. Qed.

(** Capacity 3: two pushes and two pulls leave [produce = 2], [empty = 1];
    two more of each leave [produce = 1], [empty = 1]; three pushes fill
    the buffer, a fourth is rejected, and [produce = consume = 1],
    [empty = 0]. *)
Example main_capacity_3 :
  ('(r1, p) ← Part002.fifo_push true (Some (mk_fifo 3 1 0 0 [None; None; None])) (Some "a");
   '(r2, p) ← Part002.fifo_push true p (Some "a");
   '(s1, p) ← Part002.fifo_pull p;
   '(s2, p) ← Part002.fifo_pull p;
   '(r3, q) ← Part002.fifo_push true p (Some "b");
   '(r4, q) ← Part002.fifo_push true q (Some "b");
   '(s3, q) ← Part002.fifo_pull q;
   '(s4, q) ← Part002.fifo_pull q;
   '(r5, r) ← Part002.fifo_push true q (Some "c");
   '(r6, r) ← Part002.fifo_push true r (Some "c");
   '(r7, r) ← Part002.fifo_push true r (Some "c");
   '(r8, r) ← Part002.fifo_push true r (Some "d");
   mret ([r1; r2; r3; r4; r5; r6; r7; r8], [s1; s2; s3; s4], p, q, r))
  = Ok ([1; 1; 1; 1; 1; 1; 1; 0],
        [Some "a"; Some "a"; Some "b"; Some "b"],
        Some (mk_fifo 3 1 2 2 [None; None; None]),
        Some (mk_fifo 3 1 1 1 [None; None; None]),
        Some (mk_fifo 3 0 1 1 [Some "c"; Some "c"; Some "c"]))
       [EvCalloc true; EvCalloc true; EvCalloc true; EvCalloc true;
        EvCalloc true; EvCalloc true; EvCalloc true].
Proof. reflexivity. Qed.

(** [fifo_free] on the full buffer of capacity 4 of [main] releases the four
    strings and then the structure. *)
Example main_free_full :
  Part002.fifo_free 4
    (Some (mk_fifo 4 0 0 0 [Some "elem1"; Some "elem2"; Some "elem3"; Some "elem4"]))
  = Some (Ok tt [EvFreeSlot 0; EvFreeSlot 1; EvFreeSlot 2; EvFreeSlot 3; EvFreeFifo]).
Proof. reflexivity. Qed.

(** * Beyond the claims: clients, [fifo_dump], [fifo_free], and the slots *)

(** ** A sequence of calls against the bounded queue *)

Lemma p2_run_repr cs : ∀ f q,
  repr 0 f q →
  ∃ f' tr,
    Part002Rest.run cs (Some f) = Ok ((flag_queue_run (size f) q cs).1, Some f') tr
    ∧ repr 0 f' (flag_queue_run (size f) q cs).2
    ∧ size f' = size f.
Proof.
  induction cs as [|o cs IH]; intros f q Hq; [by exists f, []|].
  pose proof (repr_fits _ _ _ Hq) as Hfits.
  assert (Hstep : ∃ f1 tr1 r,
    (match o with
     | CallPush alloc_ok str =>
         '(r, fp) ← Part002.fifo_push alloc_ok (Some f) str; mret (RetInt r, fp)
     | CallPull =>
         '(s, fp) ← Part002.fifo_pull (Some f); mret (RetStr s, fp)
     end) = Ok (r, Some f1) tr1
    ∧ flag_queue_call (size f) q o = (r, (flag_queue_call (size f) q o).2)
    ∧ repr 0 f1 (flag_queue_call (size f) q o).2
    ∧ size f1 = size f).
  { destruct o as [alloc_ok [s|]|]; cbn [flag_queue_call].
    - destruct (Z.ltb_spec (Z.of_nat (length q)) (size f)) as [Hroom|Hfull].
      + destruct alloc_ok.
        * destruct (p2_push_room f q s Hq Hroom) as (f1 & E & Hq1 & Hsz & _).
          exists f1, ([EvCalloc true] ++ []), (RetInt 1). by rewrite E.
        * exists f, ([EvCalloc false; EvStderr] ++ []), (RetInt 1).
          by rewrite (p2_push_nomem f q s Hq Hroom).
      + exists f, [], (RetInt 0).
        by rewrite (p2_push_full alloc_ok f q s Hq) by lia.
    - rewrite p2_push_null, (p2_push_space _ _ Hq).
      destruct (Z.ltb_spec (Z.of_nat (length q)) (size f)).
      + by exists f, [], (RetInt 1).
      + by exists f, [], (RetInt 0).
    - destruct q as [|s q].
      + exists f, [], (RetStr None). by rewrite (p2_pull_empty f Hq).
      + destruct (p2_pull_some f q s Hq) as (f1 & E & Hq1 & Hsz & _).
        exists f1, [], (RetStr (Some s)). by rewrite E. }
  destruct Hstep as (f1 & tr1 & r & E1 & Er & Hq1 & Hsz1).
  destruct (IH f1 _ Hq1) as (f' & tr & E & Hq' & Hsz').
  rewrite Hsz1 in E, Hq'.
  cbn [flag_queue_run]. rewrite Er.
  destruct (flag_queue_run (size f) (flag_queue_call (size f) q o).2 cs)
    as [rs q''] eqn:Erun.
  exists f', (tr1 ++ tr ++ []). split; [|split; [done|congruence]].
  destruct o as [alloc_ok str|]; cbn [Part002Rest.run].
  - destruct (Part002.fifo_push alloc_ok (Some f) str) as [[r0 fp0] tr0|]; [|done].
    cbn in E1. injection E1 as <- -> E1. rewrite app_nil_r in E1. subst tr1.
    cbn. by rewrite E.
  - destruct (Part002.fifo_pull (Some f)) as [[r0 fp0] tr0|]; [|done].
    cbn in E1. injection E1 as <- -> E1. rewrite app_nil_r in E1. subst tr1.
    cbn. by rewrite E.
Qed.

(** X1.  Last revision: whatever calls of [fifo_push] and [fifo_pull] a client
    makes on a buffer from [fifo_new(c)], with whatever answers of the
    allocator, no call faults and the calls return what the bounded queue
    of capacity [c] returns; the buffer ends with as many populated slots
    as the queue has strings. *)
Theorem p2_client_is_queue c cs :
  0 <= c <= INT_MAX →
  ∃ f0 tr0 f tr,
    Part002.fifo_new true c = Ok (Some f0) tr0
    ∧ Part002Rest.run cs (Some f0) = Ok ((flag_queue_run c [] cs).1, Some f) tr
    ∧ populated (contents f) = Z.of_nat (length (flag_queue_run c [] cs).2).
Proof.
  intros Hc.
  assert (Hq : repr 0 (mk_fifo c (if 0 <? c then 1 else 0) 0 0
                         (replicate (Z.to_nat c) None)) []).
  { apply repr_new; [done|].
    by destruct (Z.eqb_spec c 0), (Z.ltb_spec 0 c); try lia. }
  destruct (p2_run_repr cs _ _ Hq) as (f & tr & E & Hq' & _).
  eexists _, _, f, tr. split; [by apply p2_new_ok; lia|].
  split; [exact E|]. by rewrite (repr_populated _ _ _ Hq').
Qed.

Lemma p2_client_is_queue_witness :
  0 <= 2 <= INT_MAX
  ∧ ∃ f0 tr0 f tr,
      Part002.fifo_new true 2 = Ok (Some f0) tr0
      ∧ Part002Rest.run
          [CallPush true (Some "a"); CallPush false (Some "x");
           CallPush true (Some "b"); CallPush true (Some "c");
           CallPull; CallPush true (Some "d"); CallPull; CallPull; CallPull]
          (Some f0)
        = Ok ([RetInt 1; RetInt 1; RetInt 1; RetInt 0; RetStr (Some "a");
               RetInt 1; RetStr (Some "b"); RetStr (Some "d"); RetStr None],
              Some f) tr
      ∧ populated (contents f) = 0.
Proof.
  split; [by vm_compute|].
  apply (p2_client_is_queue 2
           [CallPush true (Some "a"); CallPush false (Some "x");
            CallPush true (Some "b"); CallPush true (Some "c");
            CallPull; CallPush true (Some "d"); CallPull; CallPull; CallPull]).
  by vm_compute.
Defined.

Lemma p1_run_repr cs : ∀ f q,
  repr 1 f q →
  match count_queue_run (size f) q cs with
  | Some (rs, q') =>
      ∃ f' tr,
        Part001Rest.run cs (Some f) = Ok (rs, Some f') tr
        ∧ repr 1 f' q' ∧ size f' = size f
  | None => ∃ tr, Part001Rest.run cs (Some f) = Fault NullDeref tr
  end.
Proof.
  induction cs as [|o cs IH]; intros f q Hq; [by exists f, []|].
  pose proof (repr_fits _ _ _ Hq) as Hfits.
  cbn [count_queue_run].
  assert (Hstep :
    match count_queue_call (size f) q o with
    | Some (r, q1) =>
        ∃ f1 tr1,
          (match o with
           | CallPush alloc_ok str =>
               '(r, fp) ← Part001.fifo_push alloc_ok (Some f) str; mret (RetInt r, fp)
           | CallPull =>
               '(s, fp) ← Part001.fifo_pull (Some f); mret (RetStr s, fp)
           end) = Ok (r, Some f1) tr1
          ∧ repr 1 f1 q1 ∧ size f1 = size f
    | None =>
        ∃ alloc_ok str tr1,
          o = CallPush alloc_ok str
          ∧ Part001.fifo_push alloc_ok (Some f) str = Fault NullDeref tr1
    end).
  { destruct o as [alloc_ok [s|]|]; cbn [count_queue_call].
    - destruct (Z.ltb_spec (Z.of_nat (length q)) (size f)) as [Hroom|Hfull].
      + destruct alloc_ok.
        * destruct (p1_push_room f q s Hq Hroom) as (f1 & E & Hq1 & Hsz & _).
          exists f1, ([EvCalloc true] ++ []). by rewrite E.
        * exists false, (Some s), [EvCalloc false].
          by rewrite (p1_push_nomem f q s Hq Hroom).
      + exists f, []. by rewrite (p1_push_full alloc_ok f q s Hq) by lia.
    - exists f, []. by rewrite p1_push_null, (p1_filled _ _ Hq).
    - destruct q as [|s q].
      + exists f, []. by rewrite (p1_pull_empty f Hq).
      + destruct (p1_pull_some f q s Hq) as (f1 & E & Hq1 & Hsz & _).
        exists f1, []. by rewrite E. }
  destruct (count_queue_call (size f) q o) as [[r q1]|].
  - destruct Hstep as (f1 & tr1 & E1 & Hq1 & Hsz1).
    specialize (IH f1 q1 Hq1). rewrite Hsz1 in IH.
    destruct (count_queue_run (size f) q1 cs) as [[rs q'']|].
    + destruct IH as (f' & tr & E & Hq' & Hsz').
      exists f', (tr1 ++ tr ++ []). split; [|split; [done|congruence]].
      destruct o as [alloc_ok str|]; cbn [Part001Rest.run].
      * destruct (Part001.fifo_push alloc_ok (Some f) str) as [[r0 fp0] tr0|]; [|done].
        cbn in E1. injection E1 as <- -> E1. rewrite app_nil_r in E1. subst tr1.
        cbn. by rewrite E.
      * destruct (Part001.fifo_pull (Some f)) as [[r0 fp0] tr0|]; [|done].
        cbn in E1. injection E1 as <- -> E1. rewrite app_nil_r in E1. subst tr1.
        cbn. by rewrite E.
    + destruct IH as (tr & E). exists (tr1 ++ tr).
      destruct o as [alloc_ok str|]; cbn [Part001Rest.run].
      * destruct (Part001.fifo_push alloc_ok (Some f) str) as [[r0 fp0] tr0|]; [|done].
        cbn in E1. injection E1 as <- -> E1. rewrite app_nil_r in E1. subst tr1.
        cbn. by rewrite E.
      * destruct (Part001.fifo_pull (Some f)) as [[r0 fp0] tr0|]; [|done].
        cbn in E1. injection E1 as <- -> E1. rewrite app_nil_r in E1. subst tr1.
        cbn. by rewrite E.
  - destruct Hstep as (alloc_ok & str & tr1 & -> & E1).
    exists tr1. cbn [Part001Rest.run]. by rewrite E1.
Qed.

(** X2.  Revision with [fifo_filled]: a client's calls on a buffer from
    [fifo_new(c)] return what the bounded queue of capacity [c] returns,
    a push returning the room found, as long as no push with room is
    refused by the allocator; the first such push copies into [NULL]. *)
Theorem p1_client_is_queue c cs :
  0 <= c <= INT_MAX →
  ∃ f0 tr0,
    Part001.fifo_new true c = Ok (Some f0) tr0
    ∧ match count_queue_run c [] cs with
      | Some (rs, q) =>
          ∃ f tr,
            Part001Rest.run cs (Some f0) = Ok (rs, Some f) tr
            ∧ populated (contents f) = Z.of_nat (length q)
      | None => ∃ tr, Part001Rest.run cs (Some f0) = Fault NullDeref tr
      end.
Proof.
  intros Hc.
  assert (Hq : repr 1 (mk_fifo c 1 0 0 (replicate (Z.to_nat c) None)) []).
  { apply repr_new; [done|]. by destruct (c =? 0). }
  eexists _, _. split; [by apply p1_new_ok; lia|].
  pose proof (p1_run_repr cs _ _ Hq) as H. cbn [size] in H.
  destruct (count_queue_run c [] cs) as [[rs q]|]; [|done].
  destruct H as (f & tr & E & Hq' & _). exists f, tr.
  split; [done|]. by rewrite (repr_populated _ _ _ Hq').
Qed.

Lemma p1_client_is_queue_witness :
  0 <= 2 <= INT_MAX
  ∧ (∃ f0 tr0,
       Part001.fifo_new true 2 = Ok (Some f0) tr0
       ∧ ∃ f tr,
           Part001Rest.run
             [CallPush true (Some "a"); CallPush true None;
              CallPush true (Some "b"); CallPush true (Some "c");
              CallPull; CallPull; CallPull]
             (Some f0)
           = Ok ([RetInt 2; RetInt 1; RetInt 1; RetInt 0; RetStr (Some "a");
                  RetStr (Some "b"); RetStr None], Some f) tr
           ∧ populated (contents f) = 0)
  ∧ (∃ f0 tr0,
       Part001.fifo_new true 2 = Ok (Some f0) tr0
       ∧ ∃ tr,
           Part001Rest.run [CallPush true (Some "a"); CallPush false (Some "b")]
             (Some f0)
           = Fault NullDeref tr).
Proof.
  split; [by vm_compute|]. split.
  - apply (p1_client_is_queue 2
             [CallPush true (Some "a"); CallPush true None;
              CallPush true (Some "b"); CallPush true (Some "c");
              CallPull; CallPull; CallPull]).
    by vm_compute.
  - apply (p1_client_is_queue 2 [CallPush true (Some "a"); CallPush false (Some "b")]).
    by vm_compute.
Defined.

(** ** [fifo_dump] *)

(** [fifo_free] on an empty buffer releases the structure and nothing else;
    a buffer without slots must carry [empty = 1] for that. *)
Lemma free_empty e0 f fuel :
  repr e0 f [] → size f ≠ 0 ∨ e0 = 1 →
  Part002.fifo_free fuel (Some f) = Some (Ok tt [EvFreeFifo]).
Proof.
  intros H Hcase. unfold Part002.fifo_free.
  rewrite (proj2 (repr_indices_meet _ _ _ H)) by (cbn; lia).
  assert (He : empty f = 1).
  { destruct (decide (size f = 0)) as [Hz|Hz].
    - destruct Hcase as [?| ->]; [done|]. destruct H as [_ _ _ _ _ He _].
      by rewrite (proj2 (Z.eqb_eq _ _) Hz) in He.
    - by rewrite (repr_empty_flag _ _ _ H Hz). }
  rewrite He, Z.eqb_refl. cbn. by rewrite free_loop_exit.
Qed.

Lemma p2_dump_reach c q : ∀ f,
  Part002.reachable c f → repr 0 f q →
  ∃ f',
    (∀ fuel, (length q <= fuel)%nat →
       Part002Rest.fifo_dump fuel (Some f) = Some (Ok (q, Some f') []))
    ∧ Part002.pull_n (Some f) (length q) = Ok (Some <$> q, Some f') []
    ∧ repr 0 f' [] ∧ Part002.reachable c f'.
Proof.
  induction q as [|s q IH]; intros f Hr Hq.
  - exists f. split; [|done]. intros fuel _.
    destruct fuel; cbn [Part002Rest.fifo_dump]; by rewrite (p2_pull_empty f Hq).
  - destruct (p2_pull_some f q s Hq) as (f1 & E & Hq1 & _).
    destruct (IH f1) as (f' & Hdump & Hpull & Hq' & Hr'); [|done|].
    { by apply (Part002.reach_pull c f (Some s) f1 []). }
    exists f'. split; [|split; [|done]].
    + intros [|fuel] Hfuel; [cbn in Hfuel; lia|].
      cbn [Part002Rest.fifo_dump]. rewrite E.
      by rewrite Hdump by (cbn in Hfuel; lia).
    + cbn [Part002.pull_n length]. rewrite E. cbn. by rewrite Hpull.
Qed.

(** X3.  Last revision, any reachable state: [fifo_dump] returns after as many
    iterations as the buffer holds strings; it writes exactly the strings
    that the same number of calls of [fifo_pull] return, oldest first, and
    leaves a reachable buffer without any populated slot, on which (the
    capacity not being 0) [fifo_free] releases the structure alone: the
    strings that [fifo_dump] released are not released again. *)
Theorem p2_dump_drains c f :
  Part002.reachable c f →
  ∃ out f',
    (∀ fuel, populated (contents f) <= Z.of_nat fuel →
       Part002Rest.fifo_dump fuel (Some f) = Some (Ok (out, Some f') []))
    ∧ Z.of_nat (length out) = populated (contents f)
    ∧ Part002.pull_n (Some f) (length out) = Ok (Some <$> out, Some f') []
    ∧ populated (contents f') = 0
    ∧ Part002.reachable c f'
    ∧ (0 < c → ∀ fuel, Part002.fifo_free fuel (Some f') = Some (Ok tt [EvFreeFifo])).
Proof.
  intros Hr.
  destruct (p2_reachable_repr _ _ Hr) as (_ & Hsz & q & Hq).
  destruct (p2_dump_reach c q f Hr Hq) as (f' & Hdump & Hpull & Hq' & Hr').
  destruct (p2_reachable_repr _ _ Hr') as (_ & Hsz' & _).
  exists q, f'. rewrite (repr_populated _ _ _ Hq), (repr_populated _ _ _ Hq').
  split; [intros fuel Hfuel; apply Hdump; lia|].
  split; [done|]. split; [done|]. split; [done|]. split; [done|].
  intros Hpos fuel. apply (free_empty 0 f' fuel Hq'). left. lia.
Qed.

Lemma fifo3_wrapped_reachable : Part002.reachable 3 fifo3_wrapped.
Proof.
  apply (Part002.reach_push 3 (mk_fifo 3 0 0 2 [None; None; Some "b"])
           true (Some "c") 1 _ [EvCalloc true]); [|reflexivity].
  apply (Part002.reach_pull 3 (mk_fifo 3 0 0 1 [None; Some "x"; Some "b"])
           (Some "x") _ []); [|reflexivity].
  apply (Part002.reach_pull 3 (mk_fifo 3 0 0 0 [Some "a"; Some "x"; Some "b"])
           (Some "a") _ []); [|reflexivity].
  apply (Part002.reach_push 3 (mk_fifo 3 0 2 0 [Some "a"; Some "x"; None])
           true (Some "b") 1 _ [EvCalloc true]); [|reflexivity].
  apply (Part002.reach_push 3 (mk_fifo 3 0 1 0 [Some "a"; None; None])
           true (Some "x") 1 _ [EvCalloc true]); [|reflexivity].
  apply (Part002.reach_push 3 (mk_fifo 3 1 0 0 [None; None; None])
           true (Some "a") 1 _ [EvCalloc true]); [|reflexivity].
  by apply (Part002.reach_new 3 _ [EvCalloc true]).
Qed.

Lemma p2_dump_drains_witness :
  Part002.reachable 3 fifo3_wrapped
  ∧ ∃ out f',
      (∀ fuel, populated (contents fifo3_wrapped) <= Z.of_nat fuel →
         Part002Rest.fifo_dump fuel (Some fifo3_wrapped) = Some (Ok (out, Some f') []))
      ∧ Z.of_nat (length out) = populated (contents fifo3_wrapped)
      ∧ Part002.pull_n (Some fifo3_wrapped) (length out) = Ok (Some <$> out, Some f') []
      ∧ populated (contents f') = 0
      ∧ Part002.reachable 3 f'
      ∧ (0 < 3 → ∀ fuel, Part002.fifo_free fuel (Some f') = Some (Ok tt [EvFreeFifo])).
Proof.
  split; [exact fifo3_wrapped_reachable|].
  exact (p2_dump_drains 3 fifo3_wrapped fifo3_wrapped_reachable).
Defined.

(** The output on the wrapped buffer, computed: "b" then "c". *)
Example dump_wrapped :
  Part002Rest.fifo_dump 2 (Some fifo3_wrapped)
  = Some (Ok (["b"; "c"], Some (mk_fifo 3 1 1 1 [None; None; None])) []).
Proof. reflexivity. Qed.

Lemma p2_push_all_reach c vs : ∀ f q,
  Part002.reachable c f → repr 0 f q →
  Z.of_nat (length q) + Z.of_nat (length vs) <= size f →
  ∃ f1 tr,
    Part002.push_all (Some f) vs = Ok (replicate (length vs) 1, Some f1) tr
    ∧ repr 0 f1 (q ++ vs) ∧ Part002.reachable c f1.
Proof.
  induction vs as [|v vs IH]; intros f q Hr Hq Hroom.
  - exists f, []. by rewrite app_nil_r.
  - cbn [length] in Hroom.
    destruct (p2_push_room f q v Hq) as (f' & E & Hq' & Hsz & _); [lia|].
    destruct (IH f' (q ++ [v])) as (f1 & tr & E1 & Hq1 & Hr1); [|done| |].
    { by apply (Part002.reach_push c f true (Some v) 1 f' [EvCalloc true]). }
    { rewrite length_app. cbn. lia. }
    exists f1, ([EvCalloc true] ++ tr ++ []).
    rewrite <- app_assoc in Hq1. split; [|done].
    cbn [Part002.push_all]. rewrite E. cbn. by rewrite E1.
Qed.

(** X4.  Last revision, round trip: on a reachable buffer that holds no string,
    pushing [n <= c] strings (the allocations succeeding) and then calling
    [fifo_dump] writes exactly those strings, in the order pushed, and
    leaves the buffer empty. *)
Theorem p2_push_dump_roundtrip c f (vs : list string) :
  Part002.reachable c f →
  populated (contents f) = 0 →
  Z.of_nat (length vs) <= c →
  ∃ f1 tr1 f2,
    Part002.push_all (Some f) vs = Ok (replicate (length vs) 1, Some f1) tr1
    ∧ (∀ fuel, (length vs <= fuel)%nat →
         Part002Rest.fifo_dump fuel (Some f1) = Some (Ok (vs, Some f2) []))
    ∧ populated (contents f2) = 0.
Proof.
  intros Hr Hocc Hn.
  destruct (p2_reachable_repr _ _ Hr) as (Hc & Hsz & q & Hq).
  rewrite (repr_populated _ _ _ Hq) in Hocc.
  destruct q as [|? ?]; [|cbn in Hocc; lia].
  destruct (p2_push_all_reach c vs f [] Hr Hq) as (f1 & tr1 & E1 & Hq1 & Hr1);
    [cbn; lia|].
  cbn [app] in Hq1.
  destruct (p2_dump_reach c vs f1 Hr1 Hq1) as (f2 & Hdump & _ & Hq2 & _).
  exists f1, tr1, f2. split; [done|]. split; [done|].
  by rewrite (repr_populated _ _ _ Hq2).
Qed.

Lemma p2_push_dump_roundtrip_witness :
  Part002.reachable 2 fifo2
  ∧ populated (contents fifo2) = 0
  ∧ Z.of_nat (length ["elem1"; "elem2"]) <= 2
  ∧ ∃ f1 tr1 f2,
      Part002.push_all (Some fifo2) ["elem1"; "elem2"] = Ok ([1; 1], Some f1) tr1
      ∧ (∀ fuel, (2 <= fuel)%nat →
           Part002Rest.fifo_dump fuel (Some f1) =
             Some (Ok (["elem1"; "elem2"], Some f2) []))
      ∧ populated (contents f2) = 0.
Proof.
  split; [exact fifo2_reachable|]. split; [reflexivity|].
  split; [by vm_compute|].
  apply (p2_push_dump_roundtrip 2 fifo2 ["elem1"; "elem2"]);
    [exact fifo2_reachable | reflexivity | by vm_compute].
Defined.

Lemma p1_dump_history c q : ∀ f pushes pulls,
  Part001.history c f pushes pulls → repr 1 f q →
  ∃ f',
    (∀ fuel, (length q <= fuel)%nat →
       Part001Rest.fifo_dump fuel (Some f) = Some (Ok (q, Some f') []))
    ∧ repr 1 f' []
    ∧ Part001.history c f' pushes (pulls + Z.of_nat (length q)).
Proof.
  induction q as [|s q IH]; intros f pushes pulls Hh Hq.
  - exists f. split; [|split; [done|]].
    + intros fuel _.
      destruct fuel; cbn [Part001Rest.fifo_dump]; by rewrite (p1_pull_empty f Hq).
    + cbn. by rewrite Z.add_0_r.
  - destruct (p1_pull_some f q s Hq) as (f1 & E & Hq1 & _).
    destruct (IH f1 pushes (pulls + 1)) as (f' & Hdump & Hq' & Hh'); [|done|].
    { by apply (Part001.hist_pull c f pushes pulls (Some s) f1 []). }
    exists f'. split; [|split; [done|]].
    + intros [|fuel] Hfuel; [cbn in Hfuel; lia|].
      cbn [Part001Rest.fifo_dump]. rewrite E.
      by rewrite Hdump by (cbn in Hfuel; lia).
    + replace (pulls + Z.of_nat (length (s :: q)))
        with (pulls + 1 + Z.of_nat (length q)) by (cbn [length]; lia).
      done.
Qed.

(** X5.  Revision with [fifo_filled], any state of a history: [fifo_dump]
    returns after [fifo_filled] iterations, writes that many strings, and
    leaves a buffer that [fifo_filled] reports empty, each string written
    counting as one pull; [fifo_free] then releases the structure alone,
    at every capacity, 0 included. *)
Theorem p1_dump_drains c f pushes pulls :
  Part001.history c f pushes pulls →
  ∃ out f',
    (∀ fuel, Part001.fifo_filled (Some f) <= Z.of_nat fuel →
       Part001Rest.fifo_dump fuel (Some f) = Some (Ok (out, Some f') []))
    ∧ Z.of_nat (length out) = Part001.fifo_filled (Some f)
    ∧ Part001.history c f' pushes (pulls + Z.of_nat (length out))
    ∧ Part001.fifo_filled (Some f') = 0
    ∧ (∀ fuel, Part001.fifo_free fuel (Some f') = Some (Ok tt [EvFreeFifo])).
Proof.
  intros Hh.
  destruct (p1_history_repr _ _ _ _ Hh) as (_ & _ & q & Hq & _).
  destruct (p1_dump_history c q f pushes pulls Hh Hq) as (f' & Hdump & Hq' & Hh').
  exists q, f'. rewrite (p1_filled _ _ Hq), (p1_filled _ _ Hq').
  split; [intros fuel Hfuel; apply Hdump; lia|].
  split; [done|]. split; [done|]. split; [done|].
  intros fuel. apply (free_empty 1 f' fuel Hq'). by right.
Qed.

Lemma p1_dump_drains_witness :
  Part001.history 1 fifo1_full (0 + 1) 0
  ∧ ∃ out f',
      (∀ fuel, Part001.fifo_filled (Some fifo1_full) <= Z.of_nat fuel →
         Part001Rest.fifo_dump fuel (Some fifo1_full) = Some (Ok (out, Some f') []))
      ∧ Z.of_nat (length out) = Part001.fifo_filled (Some fifo1_full)
      ∧ Part001.history 1 f' (0 + 1) (0 + Z.of_nat (length out))
      ∧ Part001.fifo_filled (Some f') = 0
      ∧ (∀ fuel, Part001.fifo_free fuel (Some f') = Some (Ok tt [EvFreeFifo])).
Proof.
  split; [exact fifo1_full_history|].
  exact (p1_dump_drains 1 fifo1_full (0 + 1) 0 fifo1_full_history).
Defined.

(** ** [fifo_free], where it is safe *)

Lemma p2_free_reachable_witness :
  Part002.reachable 3 fifo3_wrapped
  ∧ 0 < 3
  ∧ ∃ slots : list Z,
      (∀ fuel, (Z.to_nat 3 <= fuel)%nat →
         Part002.fifo_free fuel (Some fifo3_wrapped) =
           Some (Ok tt ((EvFreeSlot <$> slots) ++ [EvFreeFifo])))
      ∧ NoDup slots
      ∧ ∀ i, i ∈ slots ↔
             0 <= i ∧ ∃ v, contents fifo3_wrapped !! Z.to_nat i = Some (Some v).
Proof.
  split; [exact fifo3_wrapped_reachable|]. split; [by vm_compute|].
  apply (p2_free_reachable 3 fifo3_wrapped fifo3_wrapped_reachable).
  by vm_compute.
Defined.

(** The slots released on the wrapped buffer, computed: slot 2 ("b"), then
    slot 0 ("c"); slot 1, which is empty, is not touched. *)
Example free_wrapped :
  Part002.fifo_free 3 (Some fifo3_wrapped)
  = Some (Ok tt [EvFreeSlot 2; EvFreeSlot 0; EvFreeFifo]).
Proof. reflexivity. Qed.

Lemma p1_free_history_witness :
  Part001.history 1 fifo1_full (0 + 1) 0
  ∧ ∃ slots : list Z,
      (∀ fuel, (Z.to_nat 1 <= fuel)%nat →
         Part001.fifo_free fuel (Some fifo1_full) =
           Some (Ok tt ((EvFreeSlot <$> slots) ++ [EvFreeFifo])))
      ∧ NoDup slots
      ∧ ∀ i, i ∈ slots ↔
             0 <= i ∧ ∃ v, contents fifo1_full !! Z.to_nat i = Some (Some v).
Proof.
  split; [exact fifo1_full_history|].
  exact (p1_free_history 1 fifo1_full (0 + 1) 0 fifo1_full_history).
Defined.

(** ** What a push writes and what a pull hands over *)

(** The flag of a buffer without slots plays no part when there are slots. *)
Lemma repr_flag_any e0 e1 f q : repr e0 f q → size f ≠ 0 → repr e1 f q.
Proof.
  intros [Hs Hlen Hq Hc Hp He Hsl] Hz. split; try done.
  by rewrite (proj2 (Z.eqb_neq _ _) Hz) in *.
Qed.

(** The slot at [produce] is empty as long as the buffer is not full. *)
Lemma repr_produce_slot e0 f q :
  repr e0 f q → Z.of_nat (length q) < size f →
  contents f !! Z.to_nat (produce f) = Some None.
Proof.
  intros H Hroom.
  pose proof (repr_produce _ _ _ H) as Hp.
  rewrite (proj2 (Z.eqb_neq (size f) 0)) in Hp by lia.
  rewrite Hp, (repr_slots _ _ _ H (length q) Hroom).
  f_equal. by apply lookup_ge_None_2.
Qed.

(** The structure after a push that stores, and after a pull that removes. *)
Lemma p2_push_room_state f q s :
  repr 0 f q → Z.of_nat (length q) < size f →
  Part002.fifo_push true (Some f) (Some s) =
    Ok (1, Some (mk_fifo (size f) 0 ((produce f + 1) mod size f) (consume f)
                   (<[Z.to_nat (produce f) := Some s]> (contents f))))
       [EvCalloc true].
Proof.
  intros H Hroom.
  destruct (repr_produce_range _ _ _ H) as [Hc Hp]; [lia|].
  pose proof (repr_alloc _ _ _ H) as Hlen.
  pose proof (repr_empty_flag _ _ _ H ltac:(lia)) as He.
  unfold Part002.fifo_push. rewrite (p2_push_space _ _ H).
  destruct (Z.ltb_spec (Z.of_nat (length q)) (size f)); [|lia].
  cbn. rewrite slot_write_ok by lia. rewrite c_rem_succ by lia. cbn.
  do 3 f_equal. rewrite He. by destruct (Z.of_nat (length q) =? 0).
Qed.

Lemma p1_push_room_state f q s :
  repr 1 f q → Z.of_nat (length q) < size f →
  Part001.fifo_push true (Some f) (Some s) =
    Ok (size f - Z.of_nat (length q),
        Some (mk_fifo (size f) 0 ((produce f + 1) mod size f) (consume f)
                (<[Z.to_nat (produce f) := Some s]> (contents f))))
       [EvCalloc true].
Proof.
  intros H Hroom.
  destruct (repr_produce_range _ _ _ H) as [Hc Hp]; [lia|].
  pose proof (repr_alloc _ _ _ H) as Hlen.
  unfold Part001.fifo_push.
  rewrite (p1_filled _ _ H), (p1_push_guard _ _ H Hroom).
  cbn. rewrite slot_write_ok by lia. by rewrite c_rem_succ by lia.
Qed.

Lemma p2_pull_some_state f q s :
  repr 0 f (s :: q) →
  Part002.fifo_pull (Some f) =
    Ok (Some s,
        Some (mk_fifo (size f)
                (if (consume f + 1) mod size f =? produce f then 1 else empty f)
                (produce f) ((consume f + 1) mod size f)
                (<[Z.to_nat (consume f) := None]> (contents f))))
       [].
Proof.
  intros H.
  pose proof (repr_fits _ _ _ H) as Hq. cbn [length] in Hq.
  destruct (repr_produce_range _ _ _ H) as [Hc Hp]; [lia|].
  pose proof (repr_alloc _ _ _ H) as Hlen.
  destruct (repr_pull 0 f q s H) as [Hrd _].
  unfold Part002.fifo_pull. rewrite (p2_pull_space _ _ H).
  cbn [length]. destruct (Z.eqb_spec (Z.of_nat (S (length q))) 0); [lia|].
  cbn. rewrite (slot_read_ok _ _ _ (proj1 Hc) Hrd). cbn.
  rewrite slot_write_ok by lia. by rewrite c_rem_succ by lia.
Qed.

Lemma p1_pull_some_state f q s :
  repr 1 f (s :: q) →
  Part001.fifo_pull (Some f) =
    Ok (Some s,
        Some (mk_fifo (size f)
                (if (consume f + 1) mod size f =? produce f then 1 else empty f)
                (produce f) ((consume f + 1) mod size f)
                (<[Z.to_nat (consume f) := None]> (contents f))))
       [].
Proof.
  intros H.
  pose proof (repr_fits _ _ _ H) as Hq. cbn [length] in Hq.
  destruct (repr_produce_range _ _ _ H) as [Hc Hp]; [lia|].
  pose proof (repr_alloc _ _ _ H) as Hlen.
  destruct (repr_pull 1 f q s H) as [Hrd _].
  unfold Part001.fifo_pull. rewrite (p1_filled _ _ H).
  cbn [length]. destruct (Z.leb_spec (Z.of_nat (S (length q))) 0); [lia|].
  cbn. rewrite (slot_read_ok _ _ _ (proj1 Hc) Hrd). cbn.
  rewrite slot_write_ok by lia. by rewrite c_rem_succ by lia.
Qed.

(** X8.  Last revision: a call of [fifo_push] in a reachable state either leaves
    the structure as it was, or writes its string into the slot at
    [produce], which was empty: a push never overwrites a string that has
    not been pulled.  In the second case no other slot changes, [consume]
    stays, [produce] advances by one modulo the capacity and the
    occupancy grows by one. *)
Theorem p2_push_never_overwrites c f alloc_ok str r f' tr :
  Part002.reachable c f →
  Part002.fifo_push alloc_ok (Some f) str = Ok (r, Some f') tr →
  f' = f
  ∨ ∃ s,
      str = Some s ∧ alloc_ok = true ∧ r = 1
      ∧ contents f !! Z.to_nat (produce f) = Some None
      ∧ contents f' = <[Z.to_nat (produce f) := Some s]> (contents f)
      ∧ produce f' = (produce f + 1) mod c
      ∧ consume f' = consume f
      ∧ size f' = c
      ∧ populated (contents f') = populated (contents f) + 1.
Proof.
  intros Hr Hpush.
  destruct (p2_reachable_repr _ _ Hr) as (_ & Hsz & q & Hq).
  pose proof (repr_fits _ _ _ Hq) as Hfits.
  destruct str as [s|].
  - destruct (decide (Z.of_nat (length q) < size f)) as [Hroom|Hfull].
    + destruct alloc_ok.
      * right. exists s.
        rewrite (p2_push_room_state f q s Hq Hroom) in Hpush.
        injection Hpush as <- <- _. cbn. rewrite Hsz.
        do 3 (split; [done|]). split; [by apply (repr_produce_slot 0 f q)|].
        do 4 (split; [done|]).
        pose proof (repr_populated _ _ _ (repr_push 0 f q s Hq Hroom)) as Hpop.
        cbn [contents] in Hpop.
        rewrite Hpop, (repr_populated _ _ _ Hq), length_app. cbn. lia.
      * left. rewrite (p2_push_nomem f q s Hq Hroom) in Hpush.
        by injection Hpush as _ <- _.
    + left. rewrite (p2_push_full alloc_ok f q s Hq) in Hpush by lia.
      by injection Hpush as _ <- _.
  - left. rewrite p2_push_null in Hpush. by injection Hpush as _ <- _.
Qed.

Lemma p2_push_never_overwrites_witness :
  Part002.reachable 3 fifo3_wrapped
  ∧ Part002.fifo_push true (Some fifo3_wrapped) (Some "d") =
      Ok (1, Some (mk_fifo 3 0 2 2 [Some "c"; Some "d"; Some "b"])) [EvCalloc true]
  ∧ (mk_fifo 3 0 2 2 [Some "c"; Some "d"; Some "b"] = fifo3_wrapped
     ∨ ∃ s,
         Some "d" = Some s ∧ true = true ∧ 1 = 1
         ∧ contents fifo3_wrapped !! Z.to_nat (produce fifo3_wrapped) = Some None
         ∧ [Some "c"; Some "d"; Some "b"] =
             <[Z.to_nat (produce fifo3_wrapped) := Some s]> (contents fifo3_wrapped)
         ∧ 2 = (produce fifo3_wrapped + 1) mod 3
         ∧ 2 = consume fifo3_wrapped
         ∧ 3 = 3
         ∧ populated [Some "c"; Some "d"; Some "b"] =
             populated (contents fifo3_wrapped) + 1).
Proof.
  split; [exact fifo3_wrapped_reachable|]. split; [reflexivity|].
  exact (p2_push_never_overwrites 3 fifo3_wrapped true (Some "d") 1
           (mk_fifo 3 0 2 2 [Some "c"; Some "d"; Some "b"]) [EvCalloc true]
           fifo3_wrapped_reachable eq_refl).
Defined.

(** X9.  Last revision: when [fifo_pull] returns a string in a reachable state,
    the string is the one the slot at [consume] held, and that slot is
    cleared.  A later [fifo_free] returns, releases every other populated
    slot once and never the cleared one: the caller alone owns the string
    it was handed. *)
Theorem p2_pull_hands_over c f v f' tr :
  Part002.reachable c f →
  Part002.fifo_pull (Some f) = Ok (Some v, Some f') tr →
  contents f !! Z.to_nat (consume f) = Some (Some v)
  ∧ contents f' = <[Z.to_nat (consume f) := None]> (contents f)
  ∧ consume f' = (consume f + 1) mod c
  ∧ produce f' = produce f
  ∧ ∃ slots : list Z,
      (∀ fuel, (Z.to_nat c <= fuel)%nat →
         Part002.fifo_free fuel (Some f') =
           Some (Ok tt ((EvFreeSlot <$> slots) ++ [EvFreeFifo])))
      ∧ NoDup slots
      ∧ ∀ i, i ∈ slots ↔
             i ≠ consume f ∧ 0 <= i ∧ ∃ w, contents f !! Z.to_nat i = Some (Some w).
Proof.
  intros Hr Hpull.
  destruct (p2_reachable_repr _ _ Hr) as (_ & Hsz & q & Hq).
  destruct q as [|s q]; [by rewrite (p2_pull_empty f Hq) in Hpull|].
  pose proof (repr_fits _ _ _ Hq) as Hfits. cbn [length] in Hfits.
  destruct (repr_produce_range _ _ _ Hq) as [Hc _]; [lia|].
  pose proof (repr_alloc _ _ _ Hq) as Hlen.
  destruct (repr_pull 0 f q s Hq) as [Hrd Hq1].
  rewrite (p2_pull_some_state f q s Hq) in Hpull.
  injection Hpull as <- <- _. cbn [contents consume produce]. rewrite <- Hsz.
  do 4 (split; [done|]).
  destruct (free_repr 0 _ q Hq1) as (slots & Hfree & Hnd & Hin); [cbn; lia|].
  cbn [size contents] in Hfree, Hin.
  exists slots. split; [done|]. split; [done|].
  intros i. rewrite Hin. split.
  - intros [Hi [w Hw]].
    destruct (decide (i = consume f)) as [->|Hne].
    { by rewrite list_lookup_insert_eq in Hw by lia. }
    rewrite list_lookup_insert_ne in Hw by lia. eauto.
  - intros (Hne & Hi & w & Hw). split; [done|]. exists w.
    by rewrite list_lookup_insert_ne by lia.
Qed.

Lemma p2_pull_hands_over_witness :
  Part002.reachable 3 fifo3_wrapped
  ∧ Part002.fifo_pull (Some fifo3_wrapped) =
      Ok (Some "b", Some (mk_fifo 3 0 1 0 [Some "c"; None; None])) []
  ∧ contents fifo3_wrapped !! Z.to_nat (consume fifo3_wrapped) = Some (Some "b").
Proof.
  split; [exact fifo3_wrapped_reachable|]. split; [reflexivity|].
  exact (proj1 (p2_pull_hands_over 3 fifo3_wrapped "b"
                  (mk_fifo 3 0 1 0 [Some "c"; None; None]) []
                  fifo3_wrapped_reachable eq_refl)).
Defined.

(** ** The layout of the slots *)

(** The offset of a slot from [consume], going round the array. *)
Lemma wrap_back c i s :
  0 <= c < s → 0 <= i < s → (c + (i - c) mod s) mod s = i.
Proof.
  intros Hc Hi. rewrite Z.add_mod_idemp_r by lia.
  replace (c + (i - c)) with i by lia. apply Z.mod_small. lia.
Qed.

(** X10.  Last revision, capacity [c > 0], any reachable state: the array keeps
    its [c] slots, both indices stay in [0, c), [produce] is [consume]
    plus the occupancy modulo [c], and a slot is populated exactly when its
    offset from [consume], going round the array, is below the occupancy;
    every other slot is [NULL]. *)
Theorem p2_slots_layout c f :
  Part002.reachable c f → 0 < c →
  length (contents f) = Z.to_nat c
  ∧ 0 <= consume f < c
  ∧ 0 <= produce f < c
  ∧ produce f = (consume f + populated (contents f)) mod c
  ∧ ∀ i, 0 <= i < c →
      if (i - consume f) mod c <? populated (contents f)
      then ∃ v, contents f !! Z.to_nat i = Some (Some v)
      else contents f !! Z.to_nat i = Some None.
Proof.
  intros Hr Hpos.
  destruct (p2_reachable_repr _ _ Hr) as (_ & Hsz & q & Hq).
  destruct (repr_produce_range _ _ _ Hq) as [Hc Hp]; [lia|].
  pose proof (repr_produce _ _ _ Hq) as Hpr.
  rewrite (proj2 (Z.eqb_neq (size f) 0)) in Hpr by lia.
  rewrite (repr_populated _ _ _ Hq), <- Hsz.
  split; [apply (repr_alloc _ _ _ Hq)|]. do 3 (split; [done|]).
  intros i Hi.
  pose proof (Z.mod_pos_bound (i - consume f) (size f) ltac:(lia)) as Hk.
  pose proof (repr_slots _ _ _ Hq (Z.to_nat ((i - consume f) mod size f))) as Hsl.
  rewrite Z2Nat.id, wrap_back in Hsl by lia. rewrite Hsl by lia.
  destruct (Z.ltb_spec ((i - consume f) mod size f) (Z.of_nat (length q))).
  - destruct (lookup_lt_is_Some_2 q (Z.to_nat ((i - consume f) mod size f)))
      as [v ->]; [lia|]. by exists v.
  - f_equal. apply lookup_ge_None_2. lia.
Qed.

Lemma p2_slots_layout_witness :
  Part002.reachable 3 fifo3_wrapped
  ∧ 0 < 3
  ∧ length (contents fifo3_wrapped) = Z.to_nat 3
  ∧ 0 <= consume fifo3_wrapped < 3
  ∧ 0 <= produce fifo3_wrapped < 3
  ∧ produce fifo3_wrapped =
      (consume fifo3_wrapped + populated (contents fifo3_wrapped)) mod 3.
Proof.
  split; [exact fifo3_wrapped_reachable|]. split; [by vm_compute|].
  pose proof (p2_slots_layout 3 fifo3_wrapped fifo3_wrapped_reachable eq_refl)
    as (H1 & H2 & H3 & H4 & _).
  exact (conj H1 (conj H2 (conj H3 H4))).
Defined.

(** ** The two revisions side by side *)

(** X11.  On a buffer with slots in a state the last revision reaches, the two
    revisions of [fifo_pull] do the same, [fifo_filled] of the earlier
    revision counts the populated slots, and the two revisions of
    [fifo_push] (the allocation succeeding) leave the same structure and
    make the same calls; only the value returned differs: the earlier
    revision returns the room found, the last one 1 or 0. *)
Theorem revisions_agree c f :
  Part002.reachable c f → 0 < c →
  Part001.fifo_pull (Some f) = Part002.fifo_pull (Some f)
  ∧ Part001.fifo_filled (Some f) = populated (contents f)
  ∧ ∀ s, ∃ fp tr,
      Part002.fifo_push true (Some f) (Some s) =
        Ok (if populated (contents f) <? c then 1 else 0, fp) tr
      ∧ Part001.fifo_push true (Some f) (Some s) =
          Ok (c - populated (contents f), fp) tr.
Proof.
  intros Hr Hpos.
  destruct (p2_reachable_repr _ _ Hr) as (_ & Hsz & q & Hq).
  assert (Hq1 : repr 1 f q) by (apply (repr_flag_any 0); [done|lia]).
  pose proof (repr_fits _ _ _ Hq) as Hfits.
  rewrite (repr_populated _ _ _ Hq), <- Hsz.
  split; [|split; [by apply p1_filled|]].
  - destruct q as [|s q].
    + by rewrite (p1_pull_empty f Hq1), (p2_pull_empty f Hq).
    + by rewrite (p1_pull_some_state f q s Hq1), (p2_pull_some_state f q s Hq).
  - intros s. destruct (Z.ltb_spec (Z.of_nat (length q)) (size f)) as [Hroom|Hfull].
    + eexists _, _. split; [exact (p2_push_room_state f q s Hq Hroom)|].
      exact (p1_push_room_state f q s Hq1 Hroom).
    + exists (Some f), []. split; [apply (p2_push_full true f q s Hq); lia|].
      replace (size f - Z.of_nat (length q)) with 0 by lia.
      apply (p1_push_full true f q s Hq1). lia.
Qed.

Lemma revisions_agree_witness :
  Part002.reachable 3 fifo3_wrapped
  ∧ 0 < 3
  ∧ Part001.fifo_pull (Some fifo3_wrapped) = Part002.fifo_pull (Some fifo3_wrapped)
  ∧ Part001.fifo_filled (Some fifo3_wrapped) = populated (contents fifo3_wrapped).
Proof.
  split; [exact fifo3_wrapped_reachable|]. split; [by vm_compute|].
  pose proof (revisions_agree 3 fifo3_wrapped fifo3_wrapped_reachable eq_refl)
    as (H1 & H2 & _).
  exact (conj H1 H2).
Defined.

(** X12.  Revision with [fifo_filled], any state of a history: when a slot is
    free and [calloc] returns [NULL], [fifo_push] copies the string into
    [NULL], for the result of [calloc] is not tested; when no slot is free
    it returns 0 before any allocation, whatever the allocator would
    answer, and leaves the structure as it was. *)
Theorem p1_push_unchecked_calloc c f pushes pulls s :
  Part001.history c f pushes pulls →
  (Part001.fifo_filled (Some f) < c →
     Part001.fifo_push false (Some f) (Some s) = Fault NullDeref [EvCalloc false])
  ∧ (Part001.fifo_filled (Some f) = c →
       ∀ alloc_ok, Part001.fifo_push alloc_ok (Some f) (Some s) = Ok (0, Some f) []).
Proof.
  intros Hh.
  destruct (p1_history_repr _ _ _ _ Hh) as (_ & Hsz & q & Hq & _).
  rewrite (p1_filled _ _ Hq), <- Hsz. split.
  - intros Hroom. by apply (p1_push_nomem f q).
  - intros Hfull alloc_ok. by apply (p1_push_full alloc_ok f q).
Qed.

Lemma p1_push_unchecked_calloc_witness :
  Part001.history 2 fifo2 0 0
  ∧ Part001.fifo_filled (Some fifo2) < 2
  ∧ Part001.fifo_push false (Some fifo2) (Some "a") = Fault NullDeref [EvCalloc false].
Proof.
  split; [exact fifo2_history|]. split; [by vm_compute|].
  apply (proj1 (p1_push_unchecked_calloc 2 fifo2 0 0 "a" fifo2_history)).
  by vm_compute.
Defined.
